(** * GNSSPos: multi-rover position fusion ([algoritmo.py])

    A shallow embedding of the epoch loop of [algoritmo.py]: the position
    log reader ([create_dataframes]), the epoch window ([min_gpst],
    [max_gpst]), and the three phases of [algorithm] (validity check,
    gap repair, inverse-variance fusion), with the properties the design
    document states about them.

    Conventions of the embedding.
    - A pandas [Timestamp] is an integer count of nanoseconds ([Z]);
      [pd.Timedelta(seconds=1)] is [second].
    - A float column holds an exact rational ([Q]); the rounding, the
      infinities and the NaN of IEEE arithmetic are not modelled, and the
      integer columns [Q] and [ns] are [Z].  Numeric results are compared
      with [==] ([Qeq]).
    - A rover is its position in the list [rovers]; its DataFrame is the
      entry with the same position in [dataframes], a finite map from
      timestamp to row (the index of a DataFrame after [set_index]).
    - An exception raised by the Python code ([KeyError], [IndexError],
      [StopIteration], [ZeroDivisionError], ...) is [None].
    - [print] calls, the progress bar and the pickles written to disk
      are left out.

    Beside [algoritmo.py] the file embeds the rover list of the
    controller ([gnsspos/gnsspos.py], module [GNSSPos]), the
    configuration reader ([gnsspos/service/get_config.py], module
    [GetConfig]) and the date of the downloader
    ([gnsspos/service/igs_data_downloader.py], module
    [IGSDataDownloader]); there [None] is an exception as well, an
    attribute or a value that Python may leave unset is an [option] of
    its own, and a decimal number is printed with [pretty]. *)

From Stdlib Require Import Ascii String ZArith QArith Qminmax Lia Lqa.
From stdpp Require Import gmap strings pretty list fin_maps.

#[local] Open Scope Z_scope.

(** * The program *)

(** ** Numbers *)

(** [pd.Timedelta(seconds=1)], in nanoseconds. *)
Definition second : Z := 1000000000.

(** Python's [max(a, b)] on floats: [b] when [b > a], else [a]. *)
Definition py_max (a b : Q) : Q := if Qle_bool b a then a else b.

(** ** Rows *)

(** The columns of a position DataFrame other than its index [GPST]. *)
Record Row : Type := mkRow {
  x_ecef : Q;  y_ecef : Q;  z_ecef : Q;
  Qfix : Z;    ns : Z;
  sdx : Q;     sdy : Q;     sdz : Q;
  sdxy : Q;    sdyz : Q;    sdzx : Q;
  age : Q;     ratio : Q
}.

(** One rover's DataFrame, indexed by [GPST]. *)
Abbreviation series := (gmap Z Row).

(** ** Epoch window ([min_gpst], [max_gpst]) *)

(** The value held by [min_gpst] / [max_gpst]: the integer [0] they start
    with, pandas' [NaT] (the minimum of an empty index) or a timestamp. *)
Inductive stamp : Type :=
| Zero : stamp
| NaT : stamp
| At : Z → stamp.

(** [a < b]: false as soon as one side is [NaT]. *)
Definition stamp_ltb (a b : stamp) : bool :=
  match a, b with
  | At p, At q => p <? q
  | _, _ => false
  end.

(** [a == 0]: a [Timestamp] or [NaT] never equals the integer [0]. *)
Definition is_zero (a : stamp) : bool :=
  match a with Zero => true | _ => false end.

Definition stamp_min (a b : stamp) : stamp := if stamp_ltb b a then b else a.
Definition stamp_max (a b : stamp) : stamp := if stamp_ltb a b then b else a.

(** The keys of a DataFrame, [df.index]. *)
Definition index (df : series) : list Z := (map_to_list df).*1.

(** [idx.min()] and [idx.max()] of a list of timestamps. *)
Definition index_min (idx : list Z) : stamp :=
  match idx with
  | [] => NaT
  | t :: ts => At (foldr Z.min t ts)
  end.

Definition index_max (idx : list Z) : stamp :=
  match idx with
  | [] => NaT
  | t :: ts => At (foldr Z.max t ts)
  end.

(** One turn of the loop [for r in rovers] of lines 89-101. *)
Definition window_step (acc : stamp * stamp) (df : series) : stamp * stamp :=
  let '(min_gpst, max_gpst) := acc in
  let min_gpst := if is_zero min_gpst then index_min (index df) else min_gpst in
  let max_gpst := if is_zero max_gpst then index_max (index df) else max_gpst in
  (stamp_min min_gpst (index_min (index df)),
   stamp_max max_gpst (index_max (index df))).

(** The pair [(min_gpst, max_gpst)] after the loop. *)
Definition window (dataframes : list series) : stamp * stamp :=
  foldl window_step (Zero, Zero) dataframes.

(** ** Validity check (lines 131-163) *)

(** The dictionary [thesholds], keyed by the pair (earlier rover, later
    rover) of positions in [rovers]. *)
Abbreviation thresholds := (gmap (nat * nat) Q).

(** [dataframes[k].loc[t]] when [t] is in the index. *)
Definition row_at (dataframes : list series) (k : nat) (t : Z) : option Row :=
  dataframes !! k ≫= (.!! t).

(** The radicand of [dist], line 155. *)
Definition sq_dist (a b : Row) : Q :=
  ((x_ecef a - x_ecef b) ^ 2 + (y_ecef a - y_ecef b) ^ 2
   + (z_ecef a - z_ecef b) ^ 2)%Q.

(** [np.sqrt(sq) > thr], decided without extracting the root: a negative
    bound is below every root, and otherwise both sides are squared. *)
Definition sqrt_gt (sq thr : Q) : bool :=
  negb (Qle_bool 0 thr) || negb (Qle_bool sq (thr * thr)).

Definition dist_gt (a b : Row) (thr : Q) : bool := sqrt_gt (sq_dist a b) thr.

(** A [for] loop whose body may raise: the first failure ends the loop. *)
Fixpoint for_each {A B : Type} (body : A → B → option A) (a : A) (l : list B)
  : option A :=
  match l with
  | [] => Some a
  | b :: l' => a' ← body a b; for_each body a' l'
  end.

(** The body of the inner loop [for kJ, vJ in enumerate(rovers)], with
    [rI] the row of rover [kI] at [t]. *)
Definition check_pair (t : Z) (dataframes : list series) (th : thresholds)
    (kI : nat) (rI : Row) (invalid_rovers : gset nat) (kJ : nat)
  : option (gset nat) :=
  if (kI <? kJ)%nat then
    match row_at dataframes kJ t with
    | None => Some (invalid_rovers ∪ {[kJ]})
    | Some rJ =>
        thr ← th !! (kI, kJ);
        Some (if dist_gt rI rJ thr
              then invalid_rovers ∪ {[kI]} ∪ {[kJ]}
              else invalid_rovers)
    end
  else Some invalid_rovers.

(** The body of the outer loop [for kI, vI in enumerate(rovers)]. *)
Definition check_rover (t : Z) (dataframes : list series) (th : thresholds)
    (invalid_rovers : gset nat) (kI : nat) : option (gset nat) :=
  match row_at dataframes kI t with
  | None => Some (invalid_rovers ∪ {[kI]})
  | Some rI =>
      for_each (check_pair t dataframes th kI rI) invalid_rovers
               (seq 0 (length dataframes))
  end.

(** The set [invalid_rovers] at epoch [t]; [None] when a threshold that
    the loop reads is not in [thesholds]. *)
Definition check_validity (t : Z) (dataframes : list series) (th : thresholds)
  : option (gset nat) :=
  for_each (check_rover t dataframes th) ∅ (seq 0 (length dataframes)).

(** ** Gap repair (lines 168-264) *)

(** [new_row] as lines 184-197 initialise it. *)
Definition zero_row : Row :=
  mkRow 0 0 0 0 0 0 0 0 0 0 0 0 0.

(** The updates of lines 202-216 with the row [r] of a valid rover. *)
Definition gather (new_row r : Row) : Row :=
  {| x_ecef := x_ecef new_row + x_ecef r;
     y_ecef := y_ecef new_row + y_ecef r;
     z_ecef := z_ecef new_row + z_ecef r;
     Qfix := Z.min (Qfix new_row) (Qfix r);
     ns := Z.max (ns new_row) (ns r);
     sdx := py_max (sdx new_row) (sdx r);
     sdy := py_max (sdy new_row) (sdy r);
     sdz := py_max (sdz new_row) (sdz r);
     sdxy := py_max (sdxy new_row) (sdxy r);
     sdyz := py_max (sdyz new_row) (sdyz r);
     sdzx := py_max (sdzx new_row) (sdzx r);
     age := py_max (age new_row) (age r);
     ratio := py_max (ratio new_row) (ratio r) |}.

(** One turn of the loop of lines 198-216 for rover [k]. *)
Definition boundary_turn (invalid_rovers : gset nat) (t : Z)
    (new_row : Row) (k : nat) (df : series) : option Row :=
  if decide (k ∈ invalid_rovers) then Some new_row
  else r ← df !! t; Some (gather new_row r).

(** The loop [for kDf, df in enumerate(dataframes)], from position [k]. *)
Fixpoint boundary_loop (invalid_rovers : gset nat) (t : Z) (k : nat)
    (dfs : list series) (new_row : Row) : option Row :=
  match dfs with
  | [] => Some new_row
  | df :: rest =>
      new_row' ← boundary_turn invalid_rovers t new_row k df;
      boundary_loop invalid_rovers t (S k) rest new_row'
  end.

(** Lines 218-220: the three sums are divided by
    [len(rovers) - len(invalid_rovers)]; a zero divisor raises. *)
Definition boundary_mean (n : Z) (new_row : Row) : option Row :=
  if n =? 0 then None
  else Some {| x_ecef := x_ecef new_row / inject_Z n;
               y_ecef := y_ecef new_row / inject_Z n;
               z_ecef := z_ecef new_row / inject_Z n;
               Qfix := Qfix new_row; ns := ns new_row;
               sdx := sdx new_row; sdy := sdy new_row; sdz := sdz new_row;
               sdxy := sdxy new_row; sdyz := sdyz new_row;
               sdzx := sdzx new_row;
               age := age new_row; ratio := ratio new_row |}.

(** The row the first branch (line 178) writes. *)
Definition boundary_row (invalid_rovers : gset nat) (t : Z)
    (dataframes : list series) : option Row :=
  new_row ← boundary_loop invalid_rovers t 0 dataframes zero_row;
  boundary_mean (Z.of_nat (length dataframes) - Z.of_nat (size invalid_rovers))
                new_row.

(** [df.index[df.index < t].max()] and [df.index[df.index > t].min()]. *)
Definition prev_gpst (df : series) (t : Z) : stamp :=
  index_max (filter (λ k, k < t) (index df)).

Definition next_gpst (df : series) (t : Z) : stamp :=
  index_min (filter (λ k, t < k) (index df)).

(** [df.loc[s]]: a [KeyError] for [NaT] or a missing timestamp. *)
Definition loc (df : series) (s : stamp) : option Row :=
  match s with
  | At k => df !! k
  | _ => None
  end.

(** The row the second branch (lines 239-258) builds. *)
Definition interpolate (prev_row next_row : Row) : Row :=
  {| x_ecef := (x_ecef prev_row + x_ecef next_row) / 2;
     y_ecef := (y_ecef prev_row + y_ecef next_row) / 2;
     z_ecef := (z_ecef prev_row + z_ecef next_row) / 2;
     Qfix := Z.min (Qfix prev_row) (Qfix next_row);
     ns := Z.max (ns prev_row) (ns next_row);
     sdx := py_max (sdx prev_row) (sdx next_row);
     sdy := py_max (sdy prev_row) (sdy next_row);
     sdz := py_max (sdz prev_row) (sdz next_row);
     sdxy := py_max (sdxy prev_row) (sdxy next_row);
     sdyz := py_max (sdyz prev_row) (sdyz next_row);
     sdzx := py_max (sdzx prev_row) (sdzx next_row);
     age := py_max (age prev_row) (age next_row);
     ratio := py_max (ratio prev_row) (ratio next_row) |}.

(** The body of [for r in invalid_rovers] (lines 178-264): the first
    branch at the first epoch with a single invalid rover, the second
    after the first epoch, and nothing otherwise. *)
Definition repair_rover (min_gpst t : Z) (invalid_rovers : gset nat)
    (dataframes : list series) (r : nat) : option (list series) :=
  if (t =? min_gpst) && (size invalid_rovers =? 1)%nat then
    new_row ← boundary_row invalid_rovers t dataframes;
    df ← dataframes !! r;
    Some (<[r := <[t := new_row]> df]> dataframes)
  else if min_gpst <? t then
    df ← dataframes !! r;
    prev_row ← loc df (prev_gpst df t);
    next_row ← loc df (next_gpst df t);
    Some (<[r := <[t := interpolate prev_row next_row]> df]> dataframes)
  else Some dataframes.

(** The repair phase at epoch [t].  Python does not fix the order in which
    a set is iterated; [order] is that order. *)
Definition repair_in (order : list nat) (min_gpst t : Z)
    (invalid_rovers : gset nat) (dataframes : list series)
  : option (list series) :=
  for_each (λ dfs r, repair_rover min_gpst t invalid_rovers dfs r)
           dataframes order.

Definition repair (min_gpst t : Z) (invalid_rovers : gset nat)
    (dataframes : list series) : option (list series) :=
  repair_in (elements invalid_rovers) min_gpst t invalid_rovers dataframes.

(** ** Weighted fusion (lines 270-312) *)

(** The three running sums of [new_row] and the three of [weights]. *)
Record sums : Type := mkSums {
  sum_x : Q;  sum_y : Q;  sum_z : Q;
  w_x : Q;    w_y : Q;    w_z : Q
}.

Definition zero_sums : sums := mkSums 0 0 0 0 0 0.

(** The six updates of lines 282-287 with the row [r] of a rover.  For a
    standard deviation of zero numpy gives an infinite weight, which [Q]
    does not have ([0 ^ (-2)] is [0] there): what is proved about the
    fusion is proved for standard deviations that are not zero. *)
Definition weigh (acc : sums) (r : Row) : sums :=
  {| sum_x := sum_x acc + x_ecef r * sdx r ^ (-2);
     sum_y := sum_y acc + y_ecef r * sdy r ^ (-2);
     sum_z := sum_z acc + z_ecef r * sdz r ^ (-2);
     w_x := w_x acc + sdx r ^ (-2);
     w_y := w_y acc + sdy r ^ (-2);
     w_z := w_z acc + sdz r ^ (-2) |}.

(** One turn of the loop of lines 281-287: [df.loc[t]], then the updates. *)
Definition weigh_turn (t : Z) (acc : sums) (df : series) : option sums :=
  r ← df !! t; Some (weigh acc r).

(** The six (co)variance columns of [new_row] in the loop of lines 303-309. *)
Record spread : Type := mkSpread {
  m_sdx : Q;  m_sdy : Q;  m_sdz : Q;
  m_sdxy : Q; m_sdyz : Q; m_sdzx : Q
}.

Definition zero_spread : spread := mkSpread 0 0 0 0 0 0.

(** The six updates of lines 304-309 with the row [r] of a rover. *)
Definition widen (acc : spread) (r : Row) : spread :=
  {| m_sdx := py_max (m_sdx acc) (sdx r);
     m_sdy := py_max (m_sdy acc) (sdy r);
     m_sdz := py_max (m_sdz acc) (sdz r);
     m_sdxy := py_max (m_sdxy acc) (sdxy r);
     m_sdyz := py_max (m_sdyz acc) (sdyz r);
     m_sdzx := py_max (m_sdzx acc) (sdzx r) |}.

(** One turn of the loop of lines 303-309. *)
Definition spread_turn (t : Z) (acc : spread) (df : series) : option spread :=
  r ← df !! t; Some (widen acc r).

(** [new_row] as lines 289-312 leave it, from the sums [s] and the
    greatest (co)variances [m]. *)
Definition fused_row (s : sums) (m : spread) : Row :=
  {| x_ecef := sum_x s / w_x s;
     y_ecef := sum_y s / w_y s;
     z_ecef := sum_z s / w_z s;
     Qfix := 0; ns := 0;
     sdx := m_sdx m; sdy := m_sdy m; sdz := m_sdz m;
     sdxy := m_sdxy m; sdyz := m_sdyz m; sdzx := m_sdzx m;
     age := 0; ratio := 0 |}.

(** The fused row at epoch [t].  Reading a rover that has no row at [t]
    raises [KeyError]; with no rover at all line 289 divides the integer
    [0] by the integer [0]. *)
Definition fuse (t : Z) (dataframes : list series) : option Row :=
  s ← for_each (weigh_turn t) zero_sums dataframes;
  if decide (dataframes = []) then None
  else
    m ← for_each (spread_turn t) zero_spread dataframes;
    Some (fused_row s m).

(** ** The epoch loop (lines 126-318) *)

(** The body of the [while] loop at epoch [t]: the repaired DataFrames
    and the row appended to [final_df]. *)
Definition epoch (min_gpst t : Z) (th : thresholds) (dataframes : list series)
  : option (list series * Row) :=
  invalid_rovers ← check_validity t dataframes th;
  dataframes' ← repair min_gpst t invalid_rovers dataframes;
  new_row ← fuse t dataframes';
  Some (dataframes', new_row).

(** How a run of [algorithm] ends: normally, with the DataFrames and
    [final_df]; with an exception raised at an epoch, [final_df] holding
    the rows appended before it; or cut short by the fuel of the model. *)
Inductive outcome : Type :=
| Finished : list series → list (Z * Row) → outcome
| Raised : Z → list (Z * Row) → outcome
| OutOfFuel : outcome.

(** [while current_gpst < max_gpst: ...; current_gpst += 1 second] *)
Fixpoint epoch_loop (fuel : nat) (min_gpst max_gpst : Z) (th : thresholds)
    (current_gpst : Z) (dataframes : list series) (final_df : list (Z * Row))
  : outcome :=
  match fuel with
  | O => OutOfFuel
  | S fuel' =>
      if current_gpst <? max_gpst then
        match epoch min_gpst current_gpst th dataframes with
        | None => Raised current_gpst final_df
        | Some (dataframes', new_row) =>
            epoch_loop fuel' min_gpst max_gpst th (current_gpst + second)
                       dataframes' (final_df ++ [(current_gpst, new_row)])
        end
      else Finished dataframes final_df
  end.

(** Turns of the loop between [min_gpst] and [max_gpst], and one more for
    the test that leaves it. *)
Definition turns (min_gpst max_gpst : Z) : nat :=
  S (Z.to_nat ((max_gpst - min_gpst) / second + 1)).

(** [algorithm()] with the globals [min_gpst], [max_gpst], [thesholds] and
    [dataframes] as arguments. *)
Definition algorithm (min_gpst max_gpst : Z) (th : thresholds)
    (dataframes : list series) : outcome :=
  epoch_loop (turns min_gpst max_gpst) min_gpst max_gpst th
             min_gpst dataframes [].

(** The module as a whole: the window of lines 85-101, then [algorithm].
    The loop test is false when either bound is not a timestamp. *)
Definition run (th : thresholds) (dataframes : list series) : outcome :=
  match window dataframes with
  | (At min_gpst, At max_gpst) => algorithm min_gpst max_gpst th dataframes
  | _ => Finished dataframes []
  end.

(** ** Position log reader ([create_dataframes], lines 50-60) *)

Module Reader.

#[local] Open Scope string_scope.

(** The ASCII characters that [str.strip] and the pattern [\s] take for
    blanks. *)
Definition is_space (c : ascii) : bool :=
  let n := nat_of_ascii c in
  ((9 <=? n) && (n <=? 13) || (28 <=? n) && (n <=? 32))%nat.

Fixpoint lstrip (s : string) : string :=
  match s with
  | String c s' => if is_space c then lstrip s' else s
  | EmptyString => EmptyString
  end.

Fixpoint rstrip (s : string) : string :=
  match s with
  | EmptyString => EmptyString
  | String c s' =>
      match rstrip s' with
      | EmptyString => if is_space c then EmptyString else String c EmptyString
      | tail => String c tail
      end
  end.

(** [s.strip()] *)
Definition strip (s : string) : string := rstrip (lstrip s).

(** [s.startswith(p)] *)
Definition startswith (p s : string) : bool := String.prefix p s.

(** The marker of the column header line (line 51). *)
Definition marker : string := "%  GPST".

(** [re.split(r'\s+', s)]: the fields between the runs of blanks, the
    empty ones at both ends included.  [field] is the field being read
    and [in_run] tells that the last character was a blank. *)
Fixpoint re_split (s field : string) (in_run : bool) : list string :=
  match s with
  | EmptyString => [field]
  | String c s' =>
      if is_space c then
        if in_run then re_split s' field true
        else field :: re_split s' "" true
      else re_split s' (field ++ String c "") false
  end.

(** Lines 51-52: [readline] takes a line and tests it; when it is not
    the marker, [next(file)] takes one more line, untested.  At the end
    of the file [readline] returns the empty string and [next] raises
    [StopIteration]. *)
Fixpoint skip_header (file : list string) : option (list string) :=
  match file with
  | [] => None
  | line :: rest =>
      if startswith marker (strip line) then Some rest
      else match rest with
           | [] => None
           | _ :: rest' => skip_header rest'
           end
  end.

(** Lines 55-60: the fields of a line, date and time merged; the row
    must have as many cells as [columns] (14). *)
Definition parse_line (line : string) : option (list string) :=
  match re_split (strip line) "" false with
  | date :: time :: rest =>
      let data := (date ++ " " ++ time) :: rest in
      if (length data =? 14)%nat then Some data else None
  | _ => None
  end.

(** The rows of the DataFrame of one rover, in file order, as lines
    50-60 leave it (the cells are still text; the conversions of lines
    62-68 come after). *)
Definition create_dataframe (file : list string) : option (list (list string)) :=
  body ← skip_header file;
  mapM parse_line body.

End Reader.

(** ** The window filter (lines 111-115) *)


(** ** The rovers of the controller ([gnsspos/gnsspos.py]) *)

Module GNSSPos.

(** [Rover] of [gnsspos/rover.py].  [None] is Python's [None]: the name
    that [addRover] is given is what [getNewRoverName] returned, and the
    function returns nothing when its loop ends. *)
Record Rover : Type := mkRover {
  name : option string;
  obs_file : option string;
  _pos_file : string }.

(** [Rover.setPosFile] *)
Definition setPosFile (r : Rover) (pos_file : string) : Rover :=
  mkRover (name r) (obs_file r) pos_file.

(** [f"Rover {i+1}"] *)
Definition rover_name (i : nat) : string := "Rover " +:+ pretty (S i).

(** The loop of lines 105-108 over the numbers [candidates], with
    [names] the list [[r.name for r in self._rovers]]: the first name
    that is not in the list, and [None] when the loop ends. *)
Fixpoint first_free (names : list (option string)) (candidates : list nat)
  : option string :=
  match candidates with
  | [] => None
  | i :: rest =>
      if decide (Some (rover_name i) ∈ names) then first_free names rest
      else Some (rover_name i)
  end.

(** The attribute [_rovers] of a controller is [None] as long as nothing
    was assigned to it (the class only annotates it): reading it raises
    [AttributeError]. *)
Definition getNewRoverName (_rovers : option (list Rover))
  : option (option string) :=
  rovers ← _rovers;
  Some (first_free (name <$> rovers) (seq 0 (length rovers + 1))).

(** [clearRovers] (line 100). *)
Definition clearRovers : option (list Rover) := Some [].

(** [addRover] (lines 110-114), with [isfile] and [exists_] for
    [os.path.isfile] and [os.path.exists]; the new value of [_rovers]. *)
Definition addRover (isfile exists_ : string → bool)
    (_rovers : option (list Rover)) (name : option string)
    (obs_file : option string) : option (list Rover) :=
  if match obs_file with
     | Some path => isfile path && negb (exists_ path)
     | None => false
     end
  then None
  else rovers ← _rovers; Some (rovers ++ [mkRover name obs_file ""]).

(** [deleteRover] (lines 116-123): the first rover with the name is
    deleted, and the [else] of the loop raises when there is none. *)
Definition deleteRover (_rovers : option (list Rover)) (name' : string)
  : option (list Rover) :=
  rovers ← _rovers;
  '(i, _) ← list_find (λ r, name r = Some name') rovers;
  Some (delete i rovers).

(** [s.split(sep)] for a separator of one character; [field] is the
    field being read. *)
Fixpoint split (sep : ascii) (s field : string) : list string :=
  match s with
  | EmptyString => [field]
  | String c s' =>
      if decide (c = sep) then field :: split sep s' EmptyString
      else split sep s' (field +:+ String c EmptyString)
  end.

(** Lines 49-51 of [__init__]: one rover for each field of [rovers]. *)
Definition init_rovers (isfile exists_ : string → bool)
    (_rovers : option (list Rover)) (rovers : option string)
  : option (option (list Rover)) :=
  match rovers with
  | None => Some _rovers
  | Some s =>
      for_each (λ self obsFile,
                  roverName ← getNewRoverName self;
                  Some <$> addRover isfile exists_ self roverName (Some obsFile))
               _rovers (split "," s EmptyString)
  end.

End GNSSPos.

(** ** The configuration reader ([gnsspos/service/get_config.py]) *)

Module GetConfig.

(** [s.split(sep, 1)] for a separator of one character: the text before
    the first separator and the text after it, or [s] alone. *)
Fixpoint split1 (sep : ascii) (s field : string) : list string :=
  match s with
  | EmptyString => [field]
  | String c s' =>
      if decide (c = sep) then [field; s']
      else split1 sep s' (field +:+ String c EmptyString)
  end.

(** [d[key] = value] on a dict, as the list of its items: a key that is
    in the dict keeps its place, a new key goes to the end. *)
Fixpoint setitem (d : list (string * string)) (key value : string)
  : list (string * string) :=
  match d with
  | [] => [(key, value)]
  | (k, v) :: d' =>
      if decide (k = key) then (k, value) :: d'
      else (k, v) :: setitem d' key value
  end.

(** The body of the loop of line 6 (lines 7-10): unpacking into
    [key, value] raises when the line has no ["="]. *)
Definition step (diz : list (string * string)) (line : string)
  : option (list (string * string)) :=
  if Reader.startswith "#" line || bool_decide (Reader.strip line = EmptyString)
  then Some diz
  else
    match split1 "=" line EmptyString with
    | [key; value] =>
        first ← head (GNSSPos.split "#" value EmptyString);
        Some (setitem diz (Reader.strip key) (Reader.strip first))
    | _ => None
    end.

(** Lines 5-10, from the lines of the file ([content.splitlines()]). *)
Definition diz (lines : list string) : option (list (string * string)) :=
  for_each step [] lines.

(** Line 13: the line that is printed for an item. *)
Definition item_line (item : string * string) : string :=
  "'" +:+ item.1 +:+ "': '" +:+ item.2 +:+ "',".

(** The script, from the lines of the file to the lines it prints. *)
Definition get_config (lines : list string) : option (list string) :=
  match diz lines with
  | Some items => Some (item_line <$> items)
  | None => None
  end.

End GetConfig.

(** ** The date of the downloader ([gnsspos/service/igs_data_downloader.py]) *)

Module IGSDataDownloader.

(** Python's [datetime] at midnight: a date of the proleptic Gregorian
    calendar. *)
Record date : Type := mkDate { year : Z; month : Z; day : Z }.

Definition is_leap (y : Z) : bool :=
  (y mod 4 =? 0) && (negb (y mod 100 =? 0) || (y mod 400 =? 0)).

Definition days_in_month (y m : Z) : Z :=
  if m =? 2 then (if is_leap y then 29 else 28)
  else if (m =? 4) || (m =? 6) || (m =? 9) || (m =? 11) then 30
  else 31.

(** The days before the first of January of the year [y], and before
    the first of the month [m] in the year. *)
Definition days_before_year (y : Z) : Z :=
  (y - 1) * 365 + (y - 1) / 4 - (y - 1) / 100 + (y - 1) / 400.

Definition days_before_month (y m : Z) : Z :=
  foldr (λ k acc, days_in_month y k + acc) 0
        (Z.of_nat <$> seq 1 (Z.to_nat (m - 1))).

(** [datetime(year, month, day)]: [ValueError] for a date that the
    calendar does not have. *)
Definition datetime (y m d : Z) : option date :=
  if (1 <=? y) && (y <=? 9999) && (1 <=? m) && (m <=? 12)
     && (1 <=? d) && (d <=? days_in_month y m)
  then Some (mkDate y m d)
  else None.

(** [d.toordinal()]: the first of January of the year 1 is day 1. *)
Definition toordinal (d : date) : Z :=
  days_before_year (year d) + days_before_month (year d) (month d) + day d.

(** [d.weekday()], Monday being 0, and [d.timetuple().tm_yday]. *)
Definition weekday (d : date) : Z := (toordinal d + 6) mod 7.

Definition tm_yday (d : date) : Z := days_before_month (year d) (month d) + day d.

(** [f"{n:02d}"] for a number that is not negative. *)
Definition two_digits (n : Z) : string :=
  if n <? 10 then "0" +:+ pretty n else pretty n.

(** [datetime.strptime(s, '%Y-%m-%d')] for the text
    [f"{year}-{month:02d}-{day:02d}"]: [%Y] takes four digits, and a
    text with a shorter year does not match. *)
Definition strptime (y m d : Z) : option date :=
  if y <? 1000 then None else datetime y m d.

(** [s[n:]] *)
Fixpoint str_from (n : nat) (s : string) : string :=
  match n, s with
  | O, _ => s
  | S n', String _ s' => str_from n' s'
  | S _, EmptyString => EmptyString
  end.

(** The dict [_date_obj]. *)
Record DateObj : Type := mkDateObj {
  date_str : string;
  date_obj : date;
  YYYY : Z;
  YY : string;
  DDD : Z;
  D : Z;
  D_us : Z;
  WWWW : Z }.

(** The reference date of GPS: [datetime(1980, 1, 6)]. *)
Definition gps_epoch : date := mkDate 1980 1 6.

(** [setDate] (lines 52-88), with [today] the date of
    [datetime.now()]: midnight of a date is after [now] when the date
    is after [today]. *)
Definition setDate (today : date) (year month day : Z) : option DateObj :=
  d ← datetime year month day;
  if toordinal today <? toordinal d then None
  else
    let date := pretty year +:+ "-" +:+ two_digits month +:+ "-"
                +:+ two_digits day in
    date_obj ← strptime year month day;
    let day_of_year := tm_yday date_obj in
    let day_of_week_iso := weekday date_obj in
    let day_of_week_us := (weekday date_obj + 1) mod 7 in
    let days_since_epoch := toordinal date_obj - toordinal gps_epoch in
    let gps_week := days_since_epoch / 7 in
    Some (mkDateObj date date_obj year (str_from 2 (pretty year)) day_of_year
                    day_of_week_iso day_of_week_us gps_week).

End IGSDataDownloader.

(** * Statements *)

(** ** The window *)

(** [lo] is the least of the per-rover minima of [dfs] and [hi] the
    greatest of the per-rover maxima. *)
Definition envelope (dfs : list series) (lo hi : Z) : Prop :=
  (∃ df, df ∈ dfs ∧ index_min (index df) = At lo) ∧
  (∃ df, df ∈ dfs ∧ index_max (index df) = At hi) ∧
  (∀ df, df ∈ dfs →
     ∃ m M, index_min (index df) = At m ∧ index_max (index df) = At M
            ∧ lo ≤ m ∧ M ≤ hi).

(** ** The fusion *)

(** The three axes, with the position and the standard deviation columns
    that belong to each. *)
Inductive axis : Type := X | Y | Zed.

Definition value (a : axis) (r : Row) : Q :=
  match a with X => x_ecef r | Y => y_ecef r | Zed => z_ecef r end.

Definition sd (a : axis) (r : Row) : Q :=
  match a with X => sdx r | Y => sdy r | Zed => sdz r end.

(** The rows of all the rovers at epoch [t], when each has one. *)
Definition rows_at (t : Z) (dataframes : list series) : option (list Row) :=
  mapM (.!! t) dataframes.

(** The sum of [f] over a list. *)
Definition Qsum {A : Type} (f : A → Q) (l : list A) : Q :=
  foldr (λ a acc, f a + acc)%Q 0%Q l.

(** The inverse-variance weighted mean of the design document:
    the sum of [value / sd²] over the sum of [1 / sd²]. *)
Definition weighted_mean (a : axis) (rows : list Row) : Q :=
  (Qsum (λ r, value a r / sd a r ^ 2) rows
   / Qsum (λ r, 1 / sd a r ^ 2) rows)%Q.

(** [m] is the greatest of the numbers [vs]. *)
Definition is_max_of (m : Q) (vs : list Q) : Prop :=
  (∃ v, v ∈ vs ∧ m == v) ∧ ∀ v, v ∈ vs → (v <= m)%Q.

(** The sum and the weight that [weigh] keeps for an axis. *)
Definition sum_of (a : axis) (s : sums) : Q :=
  match a with X => sum_x s | Y => sum_y s | Zed => sum_z s end.

Definition w_of (a : axis) (s : sums) : Q :=
  match a with X => w_x s | Y => w_y s | Zed => w_z s end.

(** The row [r] with the standard deviation of axis [a] set to [s]. *)
Definition with_sd (a : axis) (s : Q) (r : Row) : Row :=
  match a with
  | X => mkRow (x_ecef r) (y_ecef r) (z_ecef r) (Qfix r) (ns r)
               s (sdy r) (sdz r) (sdxy r) (sdyz r) (sdzx r) (age r) (ratio r)
  | Y => mkRow (x_ecef r) (y_ecef r) (z_ecef r) (Qfix r) (ns r)
               (sdx r) s (sdz r) (sdxy r) (sdyz r) (sdzx r) (age r) (ratio r)
  | Zed => mkRow (x_ecef r) (y_ecef r) (z_ecef r) (Qfix r) (ns r)
               (sdx r) (sdy r) s (sdxy r) (sdyz r) (sdzx r) (age r) (ratio r)
  end.


(** The six (co)variance columns. *)
Definition spread_columns : list (Row → Q) := [sdx; sdy; sdz; sdxy; sdyz; sdzx].

(** ** The validity check *)

(** [thesholds] has an entry for every pair of distinct rovers, keyed
    with the earlier rover first. *)
Definition complete (n : nat) (th : thresholds) : Prop :=
  ∀ i j : nat, (i < j)%nat → (j < n)%nat → is_Some (th !! (i, j)).

(** [thesholds] has an entry for every pair of rovers that both have a
    row at [t]. *)
Definition covers (t : Z) (dataframes : list series) (th : thresholds) : Prop :=
  ∀ i j : nat, (i < j)%nat →
    is_Some (row_at dataframes i t) → is_Some (row_at dataframes j t) →
    is_Some (th !! (i, j)).

(** Rovers [i] and [j], [i] the earlier one, both have a row at [t] and
    are farther apart than the threshold of the pair. *)
Definition violates (t : Z) (dataframes : list series) (th : thresholds)
    (i j : nat) : Prop :=
  (i < j)%nat ∧
  ∃ rI rJ thr, row_at dataframes i t = Some rI ∧ row_at dataframes j t = Some rJ
               ∧ th !! (i, j) = Some thr ∧ dist_gt rI rJ thr = true.

(** What a turn of the inner loop for the pair [(i, j)] adds to
    [invalid_rovers]: [r] is added. *)
Definition pair_adds (t : Z) (dataframes : list series) (th : thresholds)
    (i : nat) (rI : Row) (j r : nat) : Prop :=
  (i < j)%nat ∧
  ((row_at dataframes j t = None ∧ r = j) ∨
   (∃ rJ thr, row_at dataframes j t = Some rJ ∧ th !! (i, j) = Some thr
              ∧ dist_gt rI rJ thr = true ∧ (r = i ∨ r = j))).

(** What a turn of the outer loop for rover [i] adds. *)
Definition rover_adds (t : Z) (dataframes : list series) (th : thresholds)
    (i r : nat) : Prop :=
  (row_at dataframes i t = None ∧ r = i) ∨
  (∃ rI, row_at dataframes i t = Some rI ∧
         ∃ j, j ∈ seq 0 (length dataframes) ∧ pair_adds t dataframes th i rI j r).

(** ** The repair *)




(** ** The epoch loop *)

(** The timestamps [cur], [cur + second], ... of [n] turns of the loop. *)
Definition epochs_from (cur : Z) (n : nat) : list Z :=
  (λ k : nat, cur + Z.of_nat k * second) <$> seq 0 n.

(** ** The reader *)

(** The line is not the column header line, as line 51 tests it. *)
Definition not_marker (line : string) : Prop :=
  Reader.startswith Reader.marker (Reader.strip line) = false.

(** * Sample data *)

(** Two rovers whose spans overlap without being equal. *)
Definition dfA : series := {[ 2 * second := zero_row; 3 * second := zero_row ]}.
Definition dfB : series := {[ second := zero_row; 2 * second := zero_row ]}.

(** Three rovers in a row along each axis, one metre apart, each with a
    standard deviation of one metre, at the single epoch [0]. *)
Definition pos_row (p s : Q) : Row := mkRow p p p 1 5 s s s 0 0 0 0 0.

Definition line_dfs : list series :=
  [ {[ 0 := pos_row 0 1 ]}; {[ 0 := pos_row 1 1 ]}; {[ 0 := pos_row 2 1 ]} ].

(** [line_dfs] fused at epoch [0]. *)
Definition line_fused : Row := mkRow (3 # 3) (3 # 3) (3 # 3) 0 0 1 1 1 0 0 0 0 0.

(** Two rovers two metres apart, with negative covariance terms, at the
    epochs [0] and [second]; one threshold of twenty metres. *)
Definition skew_row1 : Row := mkRow 1 2 3 1 5 1 1 1 (-1) (-1) (-1) 0 0.
Definition skew_row2 : Row := mkRow 3 2 3 1 5 1 1 1 (-2) (-2) (-2) 0 0.

Definition skew_dfs : list series :=
  [ {[ 0 := skew_row1; second := skew_row1 ]};
    {[ 0 := skew_row2; second := skew_row2 ]} ].

Definition skew_th : thresholds := {[ (0, 1)%nat := 20%Q ]}.

(** Three rovers at the epoch [0]: the first two 25 m apart, the third
    10 m and 15 m from them, and a threshold of 20 m for every pair. *)
Definition far_dfs : list series :=
  [ {[ 0 := pos_row 0 1 ]};
    {[ 0 := mkRow 25 0 0 1 5 1 1 1 0 0 0 0 0 ]};
    {[ 0 := mkRow 10 0 0 1 5 1 1 1 0 0 0 0 0 ]} ].

Definition all_20 : thresholds :=
  {[ (0, 1)%nat := 20%Q; (1, 2)%nat := 20%Q; (0, 2)%nat := 20%Q ]}.

(** Three rovers of which the first has no row at the epoch [0], and
    thresholds that lack the pair of the first and the third rover. *)
Definition gap_dfs : list series :=
  [ {[ second := pos_row 0 1 ]};
    {[ 0 := pos_row 1 1; second := pos_row 1 1 ]};
    {[ 0 := pos_row 2 1; second := pos_row 2 1 ]} ].

Definition only_12 : thresholds := {[ (1, 2)%nat := 20%Q; (0, 1)%nat := 20%Q ]}.

(** Three rovers with the same rows, the third without the epoch
    [2 * second]. *)
Definition step_row (p : Q) (q : Z) (s c : Q) : Row :=
  mkRow p (p + 1) (p + 2) q 7 s s s c c c 1 3.

Definition full_df : series :=
  {[ second := step_row 10 1 1 (-1);
     2 * second := step_row 12 2 2 (-2);
     3 * second := step_row 16 2 3 (-3) ]}.

Definition holed_df : series :=
  {[ second := step_row 10 1 1 (-1);
     3 * second := step_row 16 2 3 (-3) ]}.

Definition holed_dfs : list series := [full_df; full_df; holed_df].

(** The scenario of the design document for the first epoch: the first
    rover has no row at [0], the other two are two metres apart with
    [x] 100 and 102, [sdx] 1 and 2, fix qualities 1 and 2 and negative
    covariance terms. *)
Definition start_rowB : Row := mkRow 100 50 70 1 6 1 1 1 (-1) (-1) (-1) 1 3.
Definition start_rowC : Row := mkRow 102 50 70 2 8 2 1 1 (-2) (-2) (-2) 2 4.

Definition start_dfs : list series :=
  [ {[ second := start_rowB ]};
    {[ 0 := start_rowB; second := start_rowB ]};
    {[ 0 := start_rowC; second := start_rowC ]} ].

(** Two rovers that start one second late, and a third one. *)
Definition late_df : series := {[ second := pos_row 0 1; 2 * second := pos_row 0 1 ]}.

Definition early_df : series :=
  {[ 0 := pos_row 1 1; second := pos_row 1 1; 2 * second := pos_row 1 1 ]}.

Definition late_dfs : list series := [late_df; late_df; early_df].

(** Two rovers one metre apart with the three epochs [0], [second] and
    [2 * second]. *)
Definition even_dfs : list series :=
  [ {[ 0 := pos_row 0 1; second := pos_row 0 1; 2 * second := pos_row 0 1 ]};
    early_df ].

(** A line feed, which ends the lines that Python reads from a file. *)
Definition nl : string := String (ascii_of_nat 10) EmptyString.

(** A position log: header lines, the column header line, one epoch. *)
Definition program_line : string := ("% program   : RTKPOST ver.2.4.3" ++ nl)%string.
Definition inp_line : string := ("% inp file  : rover_1.obs" ++ nl)%string.
Definition column_line : string :=
  ("%  GPST                  x-ecef(m)      y-ecef(m)      z-ecef(m)   Q  ns   sdx(m)   sdy(m)   sdz(m)  sdxy(m)  sdyz(m)  sdzx(m) age(s)  ratio"
   ++ nl)%string.
Definition epoch_line : string :=
  ("2024/01/01 00:00:00.000   4444444.1234    888888.5678   4555555.9012   1   9   0.0052   0.0031   0.0067  -0.0012   0.0024  -0.0030   1.00   12.3"
   ++ nl)%string.

Definition epoch_cells : list string :=
  [ "2024/01/01 00:00:00.000"; "4444444.1234"; "888888.5678"; "4555555.9012";
    "1"; "9"; "0.0052"; "0.0031"; "0.0067"; "-0.0012"; "0.0024"; "-0.0030";
    "1.00"; "12.3" ]%string.

(** The log with one header line before the column header line, and with
    two. *)
Definition one_header_log : list string := [program_line; column_line; epoch_line].

Definition two_header_log : list string :=
  [program_line; inp_line; column_line; epoch_line].

(** ** Thresholds that are raised *)

(** Every entry of [th] is in [th'] too, with a bound that is not
    lower. *)
Definition looser (th th' : thresholds) : Prop :=
  ∀ p thr, th !! p = Some thr → ∃ thr', th' !! p = Some thr' ∧ (thr <= thr')%Q.

(** Thresholds of thirty metres for three rovers. *)
Definition all_30 : thresholds :=
  {[ (0, 1)%nat := 30%Q; (1, 2)%nat := 30%Q; (0, 2)%nat := 30%Q ]}.

(** ** Logs without gaps *)

(** [df] has a row at each of the epochs [min_gpst],
    [min_gpst + second], ..., [min_gpst + n * second]. *)
Definition gap_free (min_gpst : Z) (n : nat) (df : series) : Prop :=
  ∀ k : nat, (k ≤ n)%nat → is_Some (df !! (min_gpst + Z.of_nat k * second)).

(** ** What a repair leaves alone *)

(** [dataframes'] is [dataframes] but for rows at [t] of the rovers in
    [invalid_rovers]: the same number of DataFrames, the same rows at
    every other timestamp, no row at [t] lost, and the DataFrames of
    the other rovers untouched. *)
Definition same_but (t : Z) (invalid_rovers : gset nat)
    (dataframes dataframes' : list series) : Prop :=
  length dataframes' = length dataframes ∧
  ∀ k df, dataframes !! k = Some df →
    ∃ df', dataframes' !! k = Some df' ∧
           (∀ u, u ≠ t → df' !! u = df !! u) ∧
           (is_Some (df !! t) → is_Some (df' !! t)) ∧
           (k ∉ invalid_rovers → df' = df).

(** A rover with rows at four epochs and one whose log stops after the
    second of them. *)
Definition long_df : series :=
  {[ 0 := pos_row 0 1; second := pos_row 0 1;
     2 * second := pos_row 0 1; 3 * second := pos_row 0 1 ]}.

Definition short_df : series := {[ 0 := pos_row 1 1; second := pos_row 1 1 ]}.

(** ** Lines of fields *)


(** [s] holds blanks only, and [s] holds no blank. *)
Fixpoint all_space (s : string) : bool :=
  match s with
  | EmptyString => true
  | String c s' => Reader.is_space c && all_space s'
  end.




(** The text of the fields [rest], each after its separator. *)
Fixpoint spaced (rest : list (string * string)) : string :=
  match rest with
  | [] => EmptyString
  | (sep, f) :: rest' => (sep ++ f ++ spaced rest')%string
  end.

(** A line of the body: the blanks [lead], the field [f], the fields
    [rest] each after its separator, and the blanks [trail], the end of
    the line among them. *)
Definition line_of (lead f : string) (rest : list (string * string))
    (trail : string) : string :=
  (lead ++ f ++ spaced rest ++ trail)%string.

(** The fields of [epoch_line], each with the separator before it. *)
Definition epoch_fields : list (string * string) :=
  [ (" ", "00:00:00.000"); ("   ", "4444444.1234"); ("    ", "888888.5678");
    ("   ", "4555555.9012"); ("   ", "1"); ("   ", "9"); ("   ", "0.0052");
    ("   ", "0.0031"); ("   ", "0.0067"); ("  ", "-0.0012"); ("   ", "0.0024");
    ("  ", "-0.0030"); ("   ", "1.00"); ("   ", "12.3") ]%string.

(** A log whose body ends with an empty line. *)
Definition blank_end_log : list string :=
  [program_line; inp_line; column_line; epoch_line; nl].

(** A log with the column header line in the second place and again in
    the fifth. *)
Definition late_marker_log : list string :=
  [program_line; column_line; inp_line; inp_line; column_line; epoch_line].

(** ** The rovers of the controller *)

(** The names of the rovers of a controller. *)
Definition rover_names (rovers : list GNSSPos.Rover) : list (option string) :=
  GNSSPos.name <$> rovers.

(** The lists of rovers that the window can bring about: it starts with
    [clearRovers], its button for a new rover adds a rover under the
    name that [getNewRoverName] returns (lines 169-170 of [gui.py]), its
    button for the selected rover deletes it by its name (line 211), and
    [run] sets the position file of a rover of the list (line 202 of
    [gnsspos.py]). *)
Inductive reachable (isfile exists_ : string → bool)
  : list GNSSPos.Rover → Prop :=
  | reachable_clear : reachable isfile exists_ []
  | reachable_add rovers roverName obsFile rovers' :
      reachable isfile exists_ rovers →
      GNSSPos.getNewRoverName (Some rovers) = Some roverName →
      GNSSPos.addRover isfile exists_ (Some rovers) roverName obsFile
      = Some rovers' →
      reachable isfile exists_ rovers'
  | reachable_delete rovers roverName rovers' :
      reachable isfile exists_ rovers →
      GNSSPos.deleteRover (Some rovers) roverName = Some rovers' →
      reachable isfile exists_ rovers'
  | reachable_run rovers i rover posFile :
      reachable isfile exists_ rovers →
      rovers !! i = Some rover →
      reachable isfile exists_ (<[i := GNSSPos.setPosFile rover posFile]> rovers).

(** A file system: what [os.path.isfile] takes for a file exists. *)
Definition file_system (isfile exists_ : string → bool) : Prop :=
  ∀ path, isfile path = true → exists_ path = true.

(** A file system with one file. *)
Definition one_file (path : string) : bool := bool_decide (path = "a.obs").

(** ** The configuration reader *)

(** The character [c] occurs in [s]. *)
Fixpoint has_char (c : ascii) (s : string) : bool :=
  match s with
  | EmptyString => false
  | String c' s' => bool_decide (c' = c) || has_char c s'
  end.

(** A configuration with a comment, a blank line and twice the key
    [pos1-posmode]. *)
Definition sample_conf : list string :=
  [ "# rtkpost options"; "";
    "pos1-posmode       =single     # (0:single,1:dgps)";
    "pos1-frequency     =l1+l2" ]%string.

(** ** The date of the downloader *)

(** A day on which the downloads run. *)
Definition a_today : IGSDataDownloader.date := IGSDataDownloader.mkDate 2025 6 1.

(** * Properties *)

(** ** The index of a DataFrame *)

Lemma elem_of_index (df : series) (t : Z) : t ∈ index df ↔ is_Some (df !! t).
Proof.
  unfold index. rewrite list_elem_of_fmap. split.
  - intros [[k r] [-> Hin]]. apply elem_of_map_to_list in Hin. by exists r.
  - intros [r Hr]. exists (t, r). split; [done|]. by apply elem_of_map_to_list.
Qed.

Lemma index_nil (df : series) : index df = [] → df = ∅.
Proof.
  unfold index. intros H. apply fmap_nil_inv in H. by apply map_to_list_empty_iff.
Qed.

Lemma foldr_min_spec (t : Z) (ts : list Z) :
  foldr Z.min t ts ∈ t :: ts ∧ ∀ k, k ∈ t :: ts → foldr Z.min t ts ≤ k.
Proof.
  induction ts as [|u ts [IHin IHle]]; simpl.
  - split; [left|]. intros k Hk. apply list_elem_of_singleton in Hk. lia.
  - split.
    + destruct (Z.min_spec u (foldr Z.min t ts)) as [[_ ->] | [_ ->]].
      * right; left.
      * apply elem_of_cons in IHin as [-> | Hin]; [left|right; by right].
    + intros k Hk. assert (foldr Z.min t ts ≤ k ∨ k = u) as [? | ->]; [|lia..].
      apply elem_of_cons in Hk as [-> | Hk]; [left; apply IHle; left|].
      apply elem_of_cons in Hk as [-> | Hk]; [by right|].
      left. apply IHle. by right.
Qed.

Lemma foldr_max_spec (t : Z) (ts : list Z) :
  foldr Z.max t ts ∈ t :: ts ∧ ∀ k, k ∈ t :: ts → k ≤ foldr Z.max t ts.
Proof.
  induction ts as [|u ts [IHin IHle]]; simpl.
  - split; [left|]. intros k Hk. apply list_elem_of_singleton in Hk. lia.
  - split.
    + destruct (Z.max_spec u (foldr Z.max t ts)) as [[_ ->] | [_ ->]].
      * apply elem_of_cons in IHin as [-> | Hin]; [left|right; by right].
      * right; left.
    + intros k Hk. assert (k ≤ foldr Z.max t ts ∨ k = u) as [? | ->]; [|lia..].
      apply elem_of_cons in Hk as [-> | Hk]; [left; apply IHle; left|].
      apply elem_of_cons in Hk as [-> | Hk]; [by right|].
      left. apply IHle. by right.
Qed.

(** [idx.min()] of a non-empty index is its least element. *)
Lemma index_min_spec (idx : list Z) :
  idx ≠ [] → ∃ m, index_min idx = At m ∧ m ∈ idx ∧ ∀ k, k ∈ idx → m ≤ k.
Proof.
  destruct idx as [|t ts]; [done|]. intros _.
  exists (foldr Z.min t ts). split; [done|]. apply foldr_min_spec.
Qed.

Lemma index_max_spec (idx : list Z) :
  idx ≠ [] → ∃ m, index_max idx = At m ∧ m ∈ idx ∧ ∀ k, k ∈ idx → k ≤ m.
Proof.
  destruct idx as [|t ts]; [done|]. intros _.
  exists (foldr Z.max t ts). split; [done|]. apply foldr_max_spec.
Qed.

Lemma index_min_nil_iff (idx : list Z) : index_min idx = NaT ↔ idx = [].
Proof. by destruct idx. Qed.

Lemma index_max_nil_iff (idx : list Z) : index_max idx = NaT ↔ idx = [].
Proof. by destruct idx. Qed.

(** ** The epoch window *)

Lemma stamp_min_At (a b : Z) : stamp_min (At a) (At b) = At (Z.min a b).
Proof.
  unfold stamp_min; simpl. destruct (Z.ltb_spec b a); f_equal; lia.
Qed.

Lemma stamp_max_At (a b : Z) : stamp_max (At a) (At b) = At (Z.max a b).
Proof.
  unfold stamp_max; simpl. destruct (Z.ltb_spec a b); f_equal; lia.
Qed.

Lemma envelope_first (df : series) (m M : Z) :
  index_min (index df) = At m → index_max (index df) = At M →
  envelope [df] m M.
Proof.
  intros Hm HM. split; [|split].
  - exists df. split; [left|done].
  - exists df. split; [left|done].
  - intros d ->%list_elem_of_singleton. exists m, M. repeat split; done || lia.
Qed.

Lemma envelope_snoc (seen : list series) (df : series) (lo hi m M : Z) :
  envelope seen lo hi →
  index_min (index df) = At m → index_max (index df) = At M →
  envelope (seen ++ [df]) (Z.min lo m) (Z.max hi M).
Proof.
  intros ((d1 & Hd1 & Hlo) & (d2 & Hd2 & Hhi) & Hall) Hm HM.
  split; [|split].
  - destruct (Z.min_spec lo m) as [[_ ->] | [_ ->]].
    + exists d1. split; [|done]. apply elem_of_app; by left.
    + exists df. split; [|done]. apply elem_of_app; right; left.
  - destruct (Z.max_spec hi M) as [[_ ->] | [_ ->]].
    + exists df. split; [|done]. apply elem_of_app; right; left.
    + exists d2. split; [|done]. apply elem_of_app; by left.
  - intros d [Hd | ->%list_elem_of_singleton]%elem_of_app.
    + destruct (Hall d Hd) as (m' & M' & ? & ? & ? & ?).
      exists m', M'. repeat split; done || lia.
    + exists m, M. repeat split; done || lia.
Qed.

Lemma window_from_At (rest seen : list series) (lo hi : Z) :
  Forall (λ df, df ≠ ∅) rest → envelope seen lo hi →
  ∃ lo' hi', foldl window_step (At lo, At hi) rest = (At lo', At hi')
             ∧ envelope (seen ++ rest) lo' hi'.
Proof.
  revert seen lo hi.
  induction rest as [|df rest IH]; intros seen lo hi Hne Henv.
  - exists lo, hi. by rewrite app_nil_r.
  - apply Forall_cons in Hne as [Hdf Hne].
    assert (index df ≠ []) as Hidx by (intros E; by apply index_nil in E).
    destruct (index_min_spec _ Hidx) as (m & Em & _).
    destruct (index_max_spec _ Hidx) as (M & EM & _).
    simpl. rewrite Em, EM. simpl. rewrite stamp_min_At, stamp_max_At.
    destruct (IH (seen ++ [df]) (Z.min lo m) (Z.max hi M) Hne)
      as (lo' & hi' & Hw & He).
    { by apply envelope_snoc. }
    exists lo', hi'. split; [done|]. by rewrite <- app_assoc in He.
Qed.

Lemma window_envelope (dataframes : list series) :
  dataframes ≠ [] → Forall (λ df, df ≠ ∅) dataframes →
  ∃ t_min t_max,
    window dataframes = (At t_min, At t_max) ∧ envelope dataframes t_min t_max.
Proof.
  destruct dataframes as [|df rest]; [done|]. intros _ Hne.
  apply Forall_cons in Hne as [Hdf Hne].
  assert (index df ≠ []) as Hidx by (intros E; by apply index_nil in E).
  destruct (index_min_spec _ Hidx) as (m & Em & _).
  destruct (index_max_spec _ Hidx) as (M & EM & _).
  unfold window. simpl. rewrite Em, EM. simpl.
  rewrite stamp_min_At, stamp_max_At, Z.min_id, Z.max_id.
  apply (window_from_At rest [df] m M Hne). by apply envelope_first.
Qed.

(** The bounds of the window are timestamps of the DataFrames, and every
    timestamp of every DataFrame lies between them. *)
Lemma envelope_keys (dfs : list series) (lo hi : Z) :
  envelope dfs lo hi →
  (∃ df, df ∈ dfs ∧ is_Some (df !! lo)) ∧
  (∃ df, df ∈ dfs ∧ is_Some (df !! hi)) ∧
  (∀ df t, df ∈ dfs → is_Some (df !! t) → lo ≤ t ≤ hi).
Proof.
  intros ((d1 & Hd1 & Hlo) & (d2 & Hd2 & Hhi) & Hall).
  assert (∀ df m, index_min (index df) = At m →
            m ∈ index df ∧ ∀ k, k ∈ index df → m ≤ k) as Hmin.
  { intros df m Hm.
    assert (index df ≠ []) as Hne by (intros E; rewrite E in Hm; done).
    destruct (index_min_spec _ Hne) as (m' & Em & ?).
    rewrite Hm in Em. by injection Em as <-. }
  assert (∀ df m, index_max (index df) = At m →
            m ∈ index df ∧ ∀ k, k ∈ index df → k ≤ m) as Hmax.
  { intros df m Hm.
    assert (index df ≠ []) as Hne by (intros E; rewrite E in Hm; done).
    destruct (index_max_spec _ Hne) as (m' & Em & ?).
    rewrite Hm in Em. by injection Em as <-. }
  split; [|split].
  - exists d1. split; [done|]. apply elem_of_index. by apply Hmin.
  - exists d2. split; [done|]. apply elem_of_index. by apply Hmax.
  - intros df t Hdf Ht%elem_of_index.
    destruct (Hall df Hdf) as (m & M & Em & EM & ? & ?).
    apply Hmin in Em as [_ Em]. apply Hmax in EM as [_ EM].
    specialize (Em t Ht). specialize (EM t Ht). lia.
Qed.

(** C7: for a non-empty list of non-empty DataFrames the loop of lines
    85-101 leaves in [min_gpst] the least of the per-rover minimum
    timestamps and in [max_gpst] the greatest of the per-rover maximum
    timestamps, so that the window is the union of the rovers' spans:
    every timestamp of every rover lies in it. *)
Theorem window_is_union_envelope (dataframes : list series) :
  dataframes ≠ [] → Forall (λ df, df ≠ ∅) dataframes →
  ∃ t_min t_max,
    window dataframes = (At t_min, At t_max) ∧
    (∃ df, df ∈ dataframes ∧ index_min (index df) = At t_min) ∧
    (∀ df, df ∈ dataframes →
       ∃ m, index_min (index df) = At m ∧ t_min ≤ m) ∧
    (∃ df, df ∈ dataframes ∧ index_max (index df) = At t_max) ∧
    (∀ df, df ∈ dataframes →
       ∃ M, index_max (index df) = At M ∧ M ≤ t_max) ∧
    (∀ df t, df ∈ dataframes → is_Some (df !! t) → t_min ≤ t ≤ t_max).
Proof.
  intros Hne Hall.
  destruct (window_envelope dataframes Hne Hall) as (lo & hi & Hw & Henv).
  exists lo, hi. split; [done|].
  pose proof (envelope_keys _ _ _ Henv) as (_ & _ & Hkeys).
  destruct Henv as (Hlo & Hhi & Hb).
  repeat split; try done.
  - intros df Hdf. destruct (Hb df Hdf) as (m & M & ? & ? & ? & ?). eauto.
  - intros df Hdf. destruct (Hb df Hdf) as (m & M & ? & ? & ? & ?). eauto.
  - by apply (Hkeys df t).
  - by apply (Hkeys df t).
Qed.

Lemma window_is_union_envelope_witness :
  ∃ t_min t_max,
    window [dfA; dfB] = (At t_min, At t_max) ∧
    (∃ df, df ∈ [dfA; dfB] ∧ index_min (index df) = At t_min) ∧
    (∀ df, df ∈ [dfA; dfB] →
       ∃ m, index_min (index df) = At m ∧ t_min ≤ m) ∧
    (∃ df, df ∈ [dfA; dfB] ∧ index_max (index df) = At t_max) ∧
    (∀ df, df ∈ [dfA; dfB] →
       ∃ M, index_max (index df) = At M ∧ M ≤ t_max) ∧
    (∀ df t, df ∈ [dfA; dfB] → is_Some (df !! t) → t_min ≤ t ≤ t_max).
Proof.
  apply (window_is_union_envelope [dfA; dfB]).
  - done.
  - repeat constructor; by vm_compute.
Defined.

(** ** Loops over the rows of an epoch *)

Lemma for_each_rows {A : Type} (f : A → Row → A) (t : Z) (acc : A)
    (dfs : list series) :
  for_each (λ a df, r ← df !! t; Some (f a r)) acc dfs
  = foldl f acc <$> rows_at t dfs.
Proof.
  revert acc. induction dfs as [|df dfs IH]; intros acc; [done|].
  unfold rows_at in *. simpl. destruct (df !! t) as [r|]; simpl; [|done].
  rewrite IH. by destruct (mapM _ dfs).
Qed.


Lemma rows_at_lookup (t : Z) (dfs : list series) (rows : list Row) (k : nat) :
  rows_at t dfs = Some rows → rows !! k = row_at dfs k t.
Proof.
  unfold rows_at, row_at. revert rows k.
  induction dfs as [|df dfs IH]; intros rows k H; simpl in H.
  - injection H as <-. by destruct k.
  - destruct (df !! t) as [r|] eqn:Er; simpl in H; [|done].
    destruct (mapM _ dfs) as [rs|] eqn:Ers; simpl in H; [|done].
    injection H as <-. destruct k as [|k]; simpl; [done|]. by apply IH.
Qed.

Lemma rows_at_is_Some (t : Z) (dfs : list series) :
  is_Some (rows_at t dfs) ↔ ∀ k df, dfs !! k = Some df → is_Some (df !! t).
Proof.
  unfold rows_at. induction dfs as [|df dfs IH]; simpl.
  - split; [intros _ k df H; by destruct k | by eexists].
  - split.
    + intros [rows H]. destruct (df !! t) as [r|] eqn:Er; simpl in H; [|done].
      destruct (mapM _ dfs) as [rs|] eqn:Ers; simpl in H; [|done].
      intros [|k] d Hd; simpl in Hd.
      * injection Hd as <-. by rewrite Er.
      * apply IH in Hd; [done | by eexists].
    + intros H. destruct (H 0%nat df eq_refl) as [r ->]. simpl.
      destruct (proj2 IH) as [rs ->]; [|by eexists].
      intros k d Hd. by apply (H (S k)).
Qed.

(** ** Weighted fusion *)

Lemma Qsum_cons {A : Type} (f : A → Q) (a : A) (l : list A) :
  Qsum f (a :: l) = (f a + Qsum f l)%Q.
Proof. done. Qed.

Lemma Qsum_app {A : Type} (f : A → Q) (l1 l2 : list A) :
  (Qsum f (l1 ++ l2) == Qsum f l1 + Qsum f l2)%Q.
Proof.
  induction l1 as [|a l1 IH].
  - change (Qsum f []) with 0%Q. rewrite app_nil_l. ring.
  - change (Qsum f ((a :: l1) ++ l2)) with (f a + Qsum f (l1 ++ l2))%Q.
    rewrite Qsum_cons, IH. ring.
Qed.

Lemma Qsum_nonneg {A : Type} (f : A → Q) (l : list A) :
  (∀ a, 0 <= f a)%Q → (0 <= Qsum f l)%Q.
Proof.
  intros Hf. induction l as [|a l IH]; [done|].
  rewrite Qsum_cons. specialize (Hf a). lra.
Qed.

(** [s ** -2] is [1 / s²]. *)
Lemma Qpower_minus_2 (s : Q) : (s ^ (-2) == 1 / s ^ 2)%Q.
Proof. simpl. unfold Qdiv. ring. Qed.

Lemma Qinv_square_nonneg (s : Q) : (0 <= 1 / s ^ 2)%Q.
Proof.
  unfold Qdiv. rewrite Qmult_1_l. apply Qinv_le_0_compat.
  simpl. nra.
Qed.

(** The running sums of the first loop: what they held, plus the sums of
    [value / sd²] and [1 / sd²] over the rows read. *)
Lemma foldl_weigh (a : axis) (rows : list Row) (acc : sums) :
  (sum_of a (foldl weigh acc rows)
     == sum_of a acc + Qsum (λ r, value a r / sd a r ^ 2) rows)%Q ∧
  (w_of a (foldl weigh acc rows)
     == w_of a acc + Qsum (λ r, 1 / sd a r ^ 2) rows)%Q.
Proof.
  revert acc. induction rows as [|r rows IH]; intros acc.
  - change (Qsum _ []) with 0%Q. simpl. split; ring.
  - cbn [foldl]. destruct (IH (weigh acc r)) as [-> ->].
    rewrite !Qsum_cons.
    split; destruct a; cbn [sum_of w_of weigh value sd sum_x sum_y sum_z w_x w_y w_z];
      rewrite Qpower_minus_2; unfold Qdiv; ring.
Qed.

Lemma fuse_Some (t : Z) (dfs : list series) (row : Row) :
  fuse t dfs = Some row ↔
  dfs ≠ [] ∧ ∃ rows, rows_at t dfs = Some rows ∧
    row = fused_row (foldl weigh zero_sums rows) (foldl widen zero_spread rows).
Proof.
  unfold fuse, weigh_turn, spread_turn. rewrite !for_each_rows.
  destruct (rows_at t dfs) as [rows|]; simpl.
  - destruct (decide (dfs = [])); simpl.
    + split; [done | by intros [? _]].
    + split.
      * intros [= <-]. split; [done|]. by exists rows.
      * intros [_ (rows' & [= <-] & ->)]. done.
  - split; [done | by intros [_ (? & ? & _)]].
Qed.

Lemma value_fused_row (a : axis) (s : sums) (m : spread) :
  value a (fused_row s m) = (sum_of a s / w_of a s)%Q.
Proof. by destruct a. Qed.

(** The three coordinates of the fused row are the inverse-variance
    weighted means of the rovers' rows. *)
Lemma fuse_weighted_mean (t : Z) (dfs : list series) (rows : list Row)
    (row : Row) (a : axis) :
  fuse t dfs = Some row → rows_at t dfs = Some rows →
  (value a row == weighted_mean a rows)%Q.
Proof.
  intros (_ & rows' & Hrows & ->)%fuse_Some Hr.
  rewrite Hrows in Hr. injection Hr as ->.
  rewrite value_fused_row. unfold weighted_mean.
  destruct (foldl_weigh a rows zero_sums) as [-> ->].
  replace (sum_of a zero_sums) with 0%Q by (by destruct a).
  replace (w_of a zero_sums) with 0%Q by (by destruct a).
  by rewrite !Qplus_0_l.
Qed.

(** The four columns that the fusion does not compute hold zero. *)
Lemma fuse_sentinels (t : Z) (dfs : list series) (row : Row) :
  fuse t dfs = Some row →
  Qfix row = 0 ∧ ns row = 0 ∧ age row = 0%Q ∧ ratio row = 0%Q.
Proof. by intros (_ & rows & _ & ->)%fuse_Some. Qed.

(** ** Sharpening one rover *)

Lemma value_with_sd (a : axis) (s : Q) (r : Row) : value a (with_sd a s r) = value a r.
Proof. by destruct a. Qed.

Lemma sd_with_sd (a : axis) (s : Q) (r : Row) : sd a (with_sd a s r) = s.
Proof. by destruct a. Qed.

(** Writing a row of rover [k] at [t] replaces entry [k] of the rows at [t]. *)
Lemma rows_at_insert (t : Z) (dfs : list series) (rows : list Row) (k : nat)
    (df : series) (r' : Row) :
  rows_at t dfs = Some rows → dfs !! k = Some df →
  rows_at t (<[k := <[t := r']> df]> dfs) = Some (<[k := r']> rows).
Proof.
  unfold rows_at. revert rows k.
  induction dfs as [|d dfs IH]; intros rows k H Hk; [by destruct k|].
  simpl in H. destruct (d !! t) as [r|] eqn:Er; simpl in H; [|done].
  destruct (mapM _ dfs) as [rs|] eqn:Ers; simpl in H; [|done].
  injection H as <-. destruct k as [|k]; simpl in *.
  - injection Hk as ->. rewrite lookup_insert_eq. simpl. by rewrite Ers.
  - rewrite Er. simpl. by rewrite (IH rs k eq_refl Hk).
Qed.

(** A sum over a list, split at position [k]. *)
Lemma Qsum_split {A : Type} (f : A → Q) (l : list A) (k : nat) (a : A) :
  l !! k = Some a →
  (Qsum f l == f a + (Qsum f (take k l) + Qsum f (drop (S k) l)))%Q.
Proof.
  intros Hk. rewrite <- (take_drop_middle l k a Hk) at 1.
  rewrite Qsum_app, Qsum_cons. ring.
Qed.

Lemma Qsum_split_insert {A : Type} (f : A → Q) (l : list A) (k : nat) (a b : A) :
  l !! k = Some a →
  (Qsum f (<[k := b]> l) == f b + (Qsum f (take k l) + Qsum f (drop (S k) l)))%Q.
Proof.
  intros Hk. pose proof (lookup_lt_Some _ _ _ Hk) as Hlt.
  rewrite (Qsum_split f (<[k := b]> l) k b) by (by apply list_lookup_insert_eq).
  rewrite take_insert_ge by lia. rewrite drop_insert_lt by lia. reflexivity.
Qed.

(** A smaller positive deviation weighs more. *)
Lemma weight_grows (s s' : Q) :
  (0 < s' → s' < s → 0 < 1 / s ^ 2 ∧ 1 / s ^ 2 < 1 / s' ^ 2)%Q.
Proof.
  intros Hs' Hlt. unfold Qdiv. rewrite !Qmult_1_l.
  assert (0 < s' ^ 2)%Q as H1 by (simpl; nra).
  assert (s' ^ 2 < s ^ 2)%Q as H2 by (simpl; nra).
  split.
  - apply Qinv_lt_0_compat. lra.
  - apply (Qinv_lt_contravar (s' ^ 2) (s ^ 2)); [done | lra | done].
Qed.


(** The same arithmetic when the value [v] already is the mean. *)
Lemma mean_stays (v S W w w' f f' : Q) :
  (0 <= W → 0 < w → w < w' →
   f * (W + w) == S + v * w → f' * (W + w') == S + v * w' →
   v == f → f' == f)%Q.
Proof.
  intros HW Hw Hw' Hf Hf' Heq. rewrite <- Heq in Hf |- *.
  assert (S == v * W)%Q as HS by lra.
  apply (Qmult_inj_r _ _ (W + w')); [lra|]. rewrite Hf', HS. ring.
Qed.


(** The fused values before and after rover [k] takes the deviation [s']
    on axis [a], written with the sum [S] and the weight [W] that the
    other rovers contribute. *)
Lemma sharpen_equations (a : axis) (t : Z) (dfs : list series)
    (rows : list Row) (k : nat) (df : series) (r : Row) (s' : Q)
    (row row' : Row) :
  rows_at t dfs = Some rows → dfs !! k = Some df → df !! t = Some r →
  (0 < s')%Q → (s' < sd a r)%Q →
  fuse t dfs = Some row →
  fuse t (<[k := <[t := with_sd a s' r]> df]> dfs) = Some row' →
  ∃ S W : Q,
    (0 <= W)%Q ∧
    (value a row * (W + 1 / sd a r ^ 2) == S + value a r * (1 / sd a r ^ 2))%Q ∧
    (value a row' * (W + 1 / s' ^ 2) == S + value a r * (1 / s' ^ 2))%Q.
Proof.
  intros Hrows Hk Hr Hs' Hlt Hfuse Hfuse'.
  pose proof (rows_at_insert t _ _ k df (with_sd a s' r) Hrows Hk) as Hrows'.
  pose proof (fuse_weighted_mean _ _ _ _ a Hfuse Hrows) as Hf.
  pose proof (fuse_weighted_mean _ _ _ _ a Hfuse' Hrows') as Hf'.
  assert (rows !! k = Some r) as Hrk.
  { rewrite (rows_at_lookup t dfs rows k Hrows).
    unfold row_at. by rewrite Hk. }
  unfold weighted_mean in Hf, Hf'.
  rewrite (Qsum_split _ rows k r Hrk) in Hf.
  rewrite (Qsum_split (λ q, 1 / sd a q ^ 2)%Q rows k r Hrk) in Hf.
  rewrite (Qsum_split_insert _ rows k r _ Hrk) in Hf'.
  rewrite (Qsum_split_insert (λ q, 1 / sd a q ^ 2)%Q rows k r _ Hrk) in Hf'.
  rewrite value_with_sd, sd_with_sd in Hf'.
  set (S := (Qsum (λ q, value a q / sd a q ^ 2) (take k rows)
             + Qsum (λ q, value a q / sd a q ^ 2) (drop (Datatypes.S k) rows))%Q)
    in *.
  set (W := (Qsum (λ q, 1 / sd a q ^ 2) (take k rows)
             + Qsum (λ q, 1 / sd a q ^ 2) (drop (Datatypes.S k) rows))%Q) in *.
  assert (0 <= W)%Q as HW.
  { unfold W. pose proof (Qsum_nonneg (λ q, 1 / sd a q ^ 2)%Q (take k rows)
                            (λ q, Qinv_square_nonneg (sd a q))).
    pose proof (Qsum_nonneg (λ q, 1 / sd a q ^ 2)%Q (drop (Datatypes.S k) rows)
                  (λ q, Qinv_square_nonneg (sd a q))).
    lra. }
  destruct (weight_grows (sd a r) s' Hs' Hlt) as [Hw Hw'].
  exists S, W. split; [done|]. split.
  - rewrite Hf. rewrite (Qplus_comm (1 / sd a r ^ 2) W).
    rewrite Qmult_comm, Qmult_div_r by lra. unfold Qdiv. ring.
  - rewrite Hf'. rewrite (Qplus_comm (1 / s' ^ 2) W).
    rewrite Qmult_comm, Qmult_div_r by lra. unfold Qdiv. ring.
Qed.

(** A rover whose value on an axis is the fused value: making its
    standard deviation smaller leaves the fused value where it is. *)
Lemma sharper_rover_at_fused_value (a : axis) (t : Z) (dfs : list series)
    (rows : list Row) (k : nat) (df : series) (r : Row) (s' : Q)
    (row row' : Row) :
  rows_at t dfs = Some rows → dfs !! k = Some df → df !! t = Some r →
  (0 < s')%Q → (s' < sd a r)%Q →
  fuse t dfs = Some row →
  fuse t (<[k := <[t := with_sd a s' r]> df]> dfs) = Some row' →
  (value a r == value a row)%Q →
  (value a row' == value a row)%Q.
Proof.
  intros Hrows Hk Hr Hs' Hlt Hfuse Hfuse' Heq.
  destruct (sharpen_equations a t dfs rows k df r s' row row'
              Hrows Hk Hr Hs' Hlt Hfuse Hfuse') as (S & W & HW & Hf & Hf').
  destruct (weight_grows (sd a r) s' Hs' Hlt) as [Hw Hw'].
  by apply (mean_stays (value a r) S W (1 / sd a r ^ 2) (1 / s' ^ 2)).
Qed.

(** With two rovers at different values on an axis and positive
    standard deviations, the fused value is neither of the two. *)
Lemma two_rovers_fused_differs (a : axis) (r1 r2 : Row) :
  (0 < sd a r1)%Q → (0 < sd a r2)%Q → ¬ (value a r1 == value a r2)%Q →
  ¬ (value a r1 == weighted_mean a [r1; r2])%Q ∧
  ¬ (value a r2 == weighted_mean a [r1; r2])%Q.
Proof.
  intros H1 H2 Hne. unfold weighted_mean.
  rewrite !Qsum_cons. change (Qsum _ []) with 0%Q.
  assert (0 < sd a r1 ^ 2)%Q as Hs1 by (simpl; nra).
  assert (0 < sd a r2 ^ 2)%Q as Hs2 by (simpl; nra).
  set (w1 := (1 / sd a r1 ^ 2)%Q). set (w2 := (1 / sd a r2 ^ 2)%Q).
  assert (0 < w1)%Q as Hw1
    by (unfold w1, Qdiv; rewrite Qmult_1_l; by apply Qinv_lt_0_compat).
  assert (0 < w2)%Q as Hw2
    by (unfold w2, Qdiv; rewrite Qmult_1_l; by apply Qinv_lt_0_compat).
  assert (value a r1 / sd a r1 ^ 2 == value a r1 * w1)%Q as ->
    by (unfold w1, Qdiv; ring).
  assert (value a r2 / sd a r2 ^ 2 == value a r2 * w2)%Q as ->
    by (unfold w2, Qdiv; ring).
  set (f := ((value a r1 * w1 + (value a r2 * w2 + 0)) / (w1 + (w2 + 0)))%Q).
  assert (f * (w1 + w2) == value a r1 * w1 + value a r2 * w2)%Q as Hf.
  { unfold f. rewrite Qmult_comm.
    assert (w1 + w2 == w1 + (w2 + 0))%Q as -> by ring.
    rewrite Qmult_div_r by lra. ring. }
  split; intros Heq; apply Hne.
  - rewrite <- Heq in Hf. apply (Qmult_inj_r _ _ w2); lra.
  - rewrite <- Heq in Hf. apply (Qmult_inj_r _ _ w1); lra.
Qed.




(** ** Running maxima *)

Lemma py_max_spec (a b : Q) :
  (py_max a b = a ∧ (b <= a)%Q) ∨ (py_max a b = b ∧ (a < b)%Q).
Proof.
  unfold py_max. destruct (Qle_bool b a) eqn:E.
  - left. split; [done|]. by apply Qle_bool_iff.
  - right. split; [done|]. apply Qnot_le_lt. intros H%Qle_bool_iff. congruence.
Qed.

Lemma py_max_ge (a b : Q) : (a <= py_max a b ∧ b <= py_max a b)%Q.
Proof. destruct (py_max_spec a b) as [[-> H] | [-> H]]; lra. Qed.


(** A maximum accumulated from [a] is the greatest of [a] and the values. *)
Lemma foldl_py_max (vs : list Q) (a : Q) : is_max_of (foldl py_max a vs) (a :: vs).
Proof.
  revert a. induction vs as [|v vs IH]; intros a; simpl.
  - split; [exists a; split; [left | reflexivity]|].
    intros v ->%list_elem_of_singleton. lra.
  - destruct (IH (py_max a v)) as [(m & Hm & Em) Hle]. split.
    + apply elem_of_cons in Hm as [-> | Hm].
      * destruct (py_max_spec a v) as [[E _] | [E _]].
        -- exists a. split; [left | by rewrite Em, E].
        -- exists v. split; [right; left | by rewrite Em, E].
      * exists m. split; [by do 2 right | done].
    + intros u Hu.
      assert (py_max a v <= foldl py_max (py_max a v) vs)%Q as H0
        by (apply Hle; left).
      destruct (py_max_ge a v) as [Ha Hv].
      apply elem_of_cons in Hu as [-> | [-> | Hu]%elem_of_cons];
        [lra | lra | apply Hle; by right].
Qed.

(** When one of the values is not negative, the start [0] plays no part. *)
Lemma is_max_of_drop_zero (m : Q) (vs : list Q) :
  is_max_of m (0%Q :: vs) → (∃ v, v ∈ vs ∧ (0 <= v)%Q) → is_max_of m vs.
Proof.
  intros [(u & Hu & Eu) Hle] (v & Hv & H0). split.
  - apply elem_of_cons in Hu as [-> | Hu]; [|by exists u].
    exists v. split; [done|].
    assert (v <= m)%Q by (apply Hle; by right). lra.
  - intros w Hw. apply Hle. by right.
Qed.

Lemma foldl_widen (rows : list Row) (acc : spread) :
  let m := foldl widen acc rows in
  m_sdx m = foldl py_max (m_sdx acc) (sdx <$> rows) ∧
  m_sdy m = foldl py_max (m_sdy acc) (sdy <$> rows) ∧
  m_sdz m = foldl py_max (m_sdz acc) (sdz <$> rows) ∧
  m_sdxy m = foldl py_max (m_sdxy acc) (sdxy <$> rows) ∧
  m_sdyz m = foldl py_max (m_sdyz acc) (sdyz <$> rows) ∧
  m_sdzx m = foldl py_max (m_sdzx acc) (sdzx <$> rows).
Proof.
  revert acc. induction rows as [|r rows IH]; intros acc; [done|].
  simpl. apply (IH (widen acc r)).
Qed.

(** Each (co)variance column of the fused row is the greatest of zero
    and the rovers' values in that column. *)
Lemma fuse_spread (t : Z) (dfs : list series) (rows : list Row) (row : Row)
    (c : Row → Q) :
  fuse t dfs = Some row → rows_at t dfs = Some rows → c ∈ spread_columns →
  is_max_of (c row) (0%Q :: (c <$> rows)).
Proof.
  intros (_ & rows' & Hrows & ->)%fuse_Some Hr Hc.
  rewrite Hrows in Hr. injection Hr as ->.
  destruct (foldl_widen rows zero_spread) as (E1 & E2 & E3 & E4 & E5 & E6).
  unfold spread_columns in Hc.
  repeat (apply elem_of_cons in Hc as [-> | Hc]);
    [ | | | | | | by apply elem_of_nil in Hc ]; simpl.
  - rewrite E1. apply foldl_py_max.
  - rewrite E2. apply foldl_py_max.
  - rewrite E3. apply foldl_py_max.
  - rewrite E4. apply foldl_py_max.
  - rewrite E5. apply foldl_py_max.
  - rewrite E6. apply foldl_py_max.
Qed.

(** A column in which some rover holds a value that is not negative is
    fused to the greatest of the rovers' values. *)
Lemma fuse_spread_max (t : Z) (dfs : list series) (rows : list Row) (row : Row)
    (c : Row → Q) :
  fuse t dfs = Some row → rows_at t dfs = Some rows → c ∈ spread_columns →
  (∃ r, r ∈ rows ∧ (0 <= c r)%Q) →
  is_max_of (c row) (c <$> rows).
Proof.
  intros Hf Hr Hc (r & Hin & H0).
  apply is_max_of_drop_zero; [by eapply fuse_spread|].
  exists (c r). split; [|done]. apply list_elem_of_fmap. by exists r.
Qed.

(** C1 at two rovers whose covariance terms are negative: the run fuses
    the epoch [0]; the greatest [sdxy] of the two rovers is [-1], and the
    fused row holds [0]. *)
Theorem fused_covariance_floor :
  ∃ dfs' row,
    run skew_th skew_dfs = Finished dfs' [(0, row)] ∧
    rows_at 0 dfs' = Some [skew_row1; skew_row2] ∧
    is_max_of (-1) [sdxy skew_row1; sdxy skew_row2] ∧
    sdxy row = 0%Q ∧
    ¬ is_max_of (sdxy row) [sdxy skew_row1; sdxy skew_row2].
Proof.
  eexists _, _. split; [by vm_compute|].
  split; [by vm_compute|]. split; [|split; [done|]].
  - split.
    + exists (-1)%Q. split; [left | reflexivity].
    + intros v [-> | ->%list_elem_of_singleton]%elem_of_cons; by vm_compute.
  - intros [(v & Hv & Ev) _].
    apply elem_of_cons in Hv as [-> | ->%list_elem_of_singleton]; by vm_compute in Ev.
Qed.

(** ** Validity check *)

Lemma for_each_ext {A B : Type} (f g : A → B → option A) (l : list B) (a : A) :
  (∀ a b, b ∈ l → f a b = g a b) → for_each f a l = for_each g a l.
Proof.
  revert a. induction l as [|b l IH]; intros a H; [done|].
  simpl. rewrite (H a b) by left. destruct (g a b) as [a'|]; simpl; [|done].
  apply IH. intros a0 b0 Hb. apply H. by right.
Qed.

(** The root of [sq] exceeds [thr] exactly when [sqrt_gt] says so. *)
Lemma sqrt_gt_spec (sq thr d : Q) :
  (0 <= d)%Q → (d * d == sq)%Q → sqrt_gt sq thr = true ↔ (thr < d)%Q.
Proof.
  intros Hd Hsq. unfold sqrt_gt.
  rewrite orb_true_iff, !negb_true_iff.
  split.
  - intros [H | H].
    + assert (¬ (0 <= thr)%Q) by (intros ?%Qle_bool_iff; congruence). lra.
    + assert (¬ (sq <= thr * thr)%Q) by (intros ?%Qle_bool_iff; congruence).
      destruct (Qlt_le_dec thr d); [done|]. nra.
  - intros Hlt. destruct (Qlt_le_dec thr 0) as [Hneg | Hpos].
    + left. destruct (Qle_bool 0 thr) eqn:E; [|done].
      apply Qle_bool_iff in E. lra.
    + right. destruct (Qle_bool sq (thr * thr)) eqn:E; [|done].
      apply Qle_bool_iff in E. nra.
Qed.

Lemma row_at_lt (dfs : list series) (k : nat) (t : Z) :
  is_Some (row_at dfs k t) → (k < length dfs)%nat.
Proof.
  unfold row_at. intros [r H]. destruct (dfs !! k) eqn:E; [|done].
  by eapply lookup_lt_Some.
Qed.

Lemma complete_covers (t : Z) (dfs : list series) (th : thresholds) :
  complete (length dfs) th → covers t dfs th.
Proof. intros H i j Hij _ Hj. apply H; [done|]. by apply row_at_lt in Hj. Qed.

(** One turn of the inner loop, for the pair [(i, j)]. *)
Lemma check_pair_step (t : Z) (dfs : list series) (th : thresholds)
    (i : nat) (rI : Row) (j : nat) (inv : gset nat) :
  ((i < j)%nat → is_Some (row_at dfs j t) → is_Some (th !! (i, j))) →
  ∃ inv0, check_pair t dfs th i rI inv j = Some inv0 ∧
          ∀ r, r ∈ inv0 ↔ r ∈ inv ∨ pair_adds t dfs th i rI j r.
Proof.
  intros Hth. unfold check_pair, pair_adds.
  destruct (i <? j)%nat eqn:Eij.
  - apply Nat.ltb_lt in Eij.
    destruct (row_at dfs j t) as [rJ|] eqn:ErJ.
    + destruct Hth as [thr Hthr]; [done | by eexists |].
      rewrite Hthr. simpl.
      destruct (dist_gt rI rJ thr) eqn:Ed; eexists; (split; [done|]); intros r.
      * rewrite !elem_of_union, !elem_of_singleton. split.
        -- intros [[? | ->] | ->]; [by left | right | right];
             (split; [done|]; right; exists rJ, thr; eauto).
        -- intros [? | [_ [[? _] | (? & ? & _ & _ & _ & [-> | ->])]]];
             [by do 2 left | done | left; by right | by right].
      * split; [by left|].
        intros [? | [_ [[? _] | (? & ? & [= <-] & [= <-] & ? & _)]]];
          [done | done | congruence].
    + eexists. split; [done|]. intros r.
      rewrite elem_of_union, elem_of_singleton. split.
      * intros [? | ->]; [by left | right; split; [done | by left]].
      * intros [? | [_ [[_ ->] | (? & ? & ? & _)]]];
          [by left | by right | done].
  - exists inv. split; [done|]. intros r. split; [by left|].
    apply Nat.ltb_ge in Eij. intros [? | [? _]]; [done | lia].
Qed.

(** The inner loop over the rovers [js], for rover [i] with row [rI]. *)
Lemma check_pair_loop (t : Z) (dfs : list series) (th : thresholds)
    (i : nat) (rI : Row) (js : list nat) (inv : gset nat) :
  (∀ j, j ∈ js → (i < j)%nat → is_Some (row_at dfs j t) →
        is_Some (th !! (i, j))) →
  ∃ inv', for_each (check_pair t dfs th i rI) inv js = Some inv' ∧
          ∀ r, r ∈ inv' ↔ r ∈ inv ∨ ∃ j, j ∈ js ∧ pair_adds t dfs th i rI j r.
Proof.
  revert inv. induction js as [|j js IH]; intros inv Hth.
  - exists inv. split; [done|]. intros r. split; [by left|].
    intros [? | (j & Hj & _)]; [done | by apply elem_of_nil in Hj].
  - destruct (check_pair_step t dfs th i rI j inv) as (inv0 & Hstep & H0).
    { apply Hth. left. }
    cbn [for_each]. rewrite Hstep. simpl.
    destruct (IH inv0) as (inv' & Hfor & Hin).
    { intros j0 Hj0. apply Hth. by right. }
    exists inv'. split; [done|]. intros r. rewrite Hin, H0. split.
    + intros [[? | ?] | (j0 & Hj0 & ?)]; [by left | right | right].
      * exists j. split; [left | done].
      * exists j0. split; [by right | done].
    + intros [? | (j0 & [-> | Hj0]%elem_of_cons & ?)].
      * by do 2 left.
      * left. by right.
      * right. by exists j0.
Qed.

(** The outer loop over the rovers [ks]. *)
Lemma check_rover_loop (t : Z) (dfs : list series) (th : thresholds)
    (ks : list nat) (inv : gset nat) :
  covers t dfs th →
  ∃ inv', for_each (check_rover t dfs th) inv ks = Some inv' ∧
          ∀ r, r ∈ inv' ↔ r ∈ inv ∨ ∃ i, i ∈ ks ∧ rover_adds t dfs th i r.
Proof.
  intros Hcov. revert inv. induction ks as [|i ks IH]; intros inv.
  - exists inv. split; [done|]. intros r. split; [by left|].
    intros [? | (i & Hi & _)]; [done | by apply elem_of_nil in Hi].
  - assert (∃ inv0, check_rover t dfs th inv i = Some inv0 ∧
              ∀ r, r ∈ inv0 ↔ r ∈ inv ∨ rover_adds t dfs th i r)
      as (inv0 & Hstep & H0).
    { unfold check_rover, rover_adds.
      destruct (row_at dfs i t) as [rI|] eqn:ErI.
      - destruct (check_pair_loop t dfs th i rI (seq 0 (length dfs)) inv)
          as (inv0 & Hfor & Hin).
        { intros j _ Hij Hj. apply Hcov; [done | by rewrite ErI | done]. }
        exists inv0. split; [done|]. intros r. rewrite Hin. split.
        + intros [? | ?]; [by left | right; right; by exists rI].
        + intros [? | [[? _] | (? & [= <-] & ?)]]; [by left | done | by right].
      - eexists. split; [done|]. intros r.
        rewrite elem_of_union, elem_of_singleton. split.
        + intros [? | ->]; [by left | right; by left].
        + intros [? | [[_ ->] | (? & ? & _)]]; [by left | by right | done]. }
    cbn [for_each]. rewrite Hstep. simpl.
    destruct (IH inv0) as (inv' & Hfor & Hin).
    exists inv'. split; [done|]. intros r. rewrite Hin, H0. split.
    + intros [[? | ?] | (i0 & Hi0 & ?)]; [by left | right | right].
      * exists i. split; [left | done].
      * exists i0. split; [by right | done].
    + intros [? | (i0 & [-> | Hi0]%elem_of_cons & ?)].
      * by do 2 left.
      * left. by right.
      * right. by exists i0.
Qed.

(** The set that the check returns, when every threshold it reads is
    there: the rovers without a row at [t] and the members of the pairs
    that are too far apart. *)
Lemma check_validity_covers (t : Z) (dfs : list series) (th : thresholds) :
  covers t dfs th →
  ∃ inv, check_validity t dfs th = Some inv ∧
    ∀ r, r ∈ inv ↔
         (r < length dfs)%nat ∧
         (row_at dfs r t = None
          ∨ ∃ s, violates t dfs th r s ∨ violates t dfs th s r).
Proof.
  intros Hcov.
  destruct (check_rover_loop t dfs th (seq 0 (length dfs)) ∅ Hcov)
    as (inv & Hfor & Hin).
  exists inv. split; [done|]. intros r. rewrite Hin. clear Hfor Hin. split.
  - intros [?%not_elem_of_empty | (i & Hi & Hadd)]; [done|].
    apply elem_of_seq in Hi.
    destruct Hadd as [[Hnone ->] | (rI & HrI & j & Hj & Hij & Hadd)].
    + split; [lia | by left].
    + apply elem_of_seq in Hj.
      destruct Hadd as [[Hnone ->] | (rJ & thr & HrJ & Hthr & Hd & Hr)].
      * split; [lia | by left].
      * assert (violates t dfs th i j) as Hv
          by (split; [done|]; by exists rI, rJ, thr).
        destruct Hr as [-> | ->].
        -- split; [lia|]. right. exists j. by left.
        -- split; [lia|]. right. exists i. by right.
  - intros [Hlt [Hnone | (s & [Hv | Hv])]]; right.
    + exists r. split; [apply elem_of_seq; lia | by left].
    + destruct Hv as (Hrs & rI & rJ & thr & HrI & HrJ & Hthr & Hd).
      exists r. split; [apply elem_of_seq; lia|]. right. exists rI.
      split; [done|]. exists s. split.
      * apply elem_of_seq. assert (is_Some (row_at dfs s t)) as ?%row_at_lt
          by (by rewrite HrJ). lia.
      * split; [done|]. right. exists rJ, thr. eauto.
    + destruct Hv as (Hsr & rI & rJ & thr & HrI & HrJ & Hthr & Hd).
      exists s. split; [apply elem_of_seq; lia|]. right. exists rI.
      split; [done|]. exists r. split; [apply elem_of_seq; lia|].
      split; [done|]. right. exists rJ, thr. eauto.
Qed.



(** The scenario of the design document: the first two rovers are 25 m
    apart with a threshold of 20 m, the third is within its thresholds;
    the invalid set is the first two rovers. *)
Example far_pair_is_invalid :
  check_validity 0 far_dfs all_20 = Some ({[ 0%nat; 1%nat ]} : gset nat).
Proof. apply (bool_decide_unpack _). by vm_compute. Qed.

(** The thresholds take part in the check only through the pairs of
    which both rovers have a row at [t]. *)
Lemma check_validity_agree (t : Z) (dfs : list series) (th th' : thresholds) :
  (∀ i j, is_Some (row_at dfs i t) → is_Some (row_at dfs j t) →
          th' !! (i, j) = th !! (i, j)) →
  check_validity t dfs th' = check_validity t dfs th.
Proof.
  intros Hagree. unfold check_validity. apply for_each_ext.
  intros inv i _. unfold check_rover.
  destruct (row_at dfs i t) as [rI|] eqn:ErI; [|done].
  apply for_each_ext. intros inv' j _. unfold check_pair.
  destruct (i <? j)%nat; [|done].
  destruct (row_at dfs j t) as [rJ|] eqn:ErJ; [|done].
  rewrite Hagree; [done | by rewrite ErI | by rewrite ErJ].
Qed.

(** C10: when one of the rovers [i] and [j] has no row at [t], the
    threshold of the pair is not read at that epoch.  As long as the
    pairs whose two rovers have a row at [t] have their entries, the
    check raises nothing, with or without an entry for [(i, j)], and
    returns the same set. *)
Theorem threshold_read_only_for_present_pairs (t : Z) (dataframes : list series)
    (th : thresholds) (i j : nat) :
  row_at dataframes i t = None ∨ row_at dataframes j t = None →
  covers t dataframes th →
  ∃ invalid_rovers,
    check_validity t dataframes (delete (i, j) th) = Some invalid_rovers ∧
    check_validity t dataframes th = Some invalid_rovers.
Proof.
  intros Hmiss Hcov.
  destruct (check_validity_covers t dataframes th Hcov) as (inv & Hinv & _).
  exists inv. split; [|done]. rewrite <- Hinv.
  apply check_validity_agree. intros a b [ra Ha] [rb Hb].
  apply lookup_delete_ne. intros [= -> ->].
  destruct Hmiss; congruence.
Qed.

Lemma threshold_read_only_for_present_pairs_witness :
  ∃ invalid_rovers,
    check_validity 0 gap_dfs (delete (0, 1)%nat only_12) = Some invalid_rovers ∧
    check_validity 0 gap_dfs only_12 = Some invalid_rovers.
Proof.
  apply (threshold_read_only_for_present_pairs 0 gap_dfs only_12 0 1).
  - left. reflexivity.
  - intros a b Hab [ra Ha] [rb Hb].
    destruct a as [|[|[|a]]]; try (by vm_compute in Ha);
      destruct b as [|[|[|b]]]; try lia; try (by vm_compute in Hb);
      by eexists.
Defined.

(** With the first rover absent at the epoch [0], the check succeeds on
    thresholds that have no entry for any pair of the first rover. *)
Example absent_rover_needs_no_threshold :
  elements <$> check_validity 0 gap_dfs {[ (1, 2)%nat := 20%Q ]}
  = Some [0%nat].
Proof. by vm_compute. Qed.

(** ** Gap repair: the neighbours of an epoch *)



(** Without an earlier row [df.loc[prev_gpst]] raises, and so does
    [df.loc[next_gpst]] without a later one. *)
Lemma prev_gpst_none (df : series) (t : Z) :
  (∀ k, k < t → df !! k = None) → loc df (prev_gpst df t) = None.
Proof.
  intros Hnone. unfold prev_gpst.
  destruct (filter (λ k, k < t) (index df)) as [|k ks] eqn:E; [done|].
  assert (k ∈ filter (λ k, k < t) (index df)) as Hk by (rewrite E; left).
  apply list_elem_of_filter in Hk as [Hkt [r Hr]%elem_of_index].
  rewrite Hnone in Hr; done.
Qed.

Lemma next_gpst_none (df : series) (t : Z) :
  (∀ k, t < k → df !! k = None) → loc df (next_gpst df t) = None.
Proof.
  intros Hnone. unfold next_gpst.
  destruct (filter (λ k, t < k) (index df)) as [|k ks] eqn:E; [done|].
  assert (k ∈ filter (λ k, t < k) (index df)) as Hk by (rewrite E; left).
  apply list_elem_of_filter in Hk as [Hkt [r Hr]%elem_of_index].
  rewrite Hnone in Hr; done.
Qed.




(** The scenario of the design document: the third rover lacks the epoch
    [:02] and has rows at [:01] and [:03]; its row at [:02] becomes their
    mean, not the row of another rover. *)
Example holed_rover_is_interpolated :
  (repair second (2 * second) {[ 2%nat ]} holed_dfs ≫= λ dfs, row_at dfs 2 (2 * second))
  = Some (mkRow (26 # 2) (28 # 2) (30 # 2) 1 7 3 3 3 (-1) (-1) (-1) 1 3)
  ∧ row_at holed_dfs 0 (2 * second) = Some (step_row 12 2 2 (-2)).
Proof. split; by vm_compute. Qed.

(** ** Gap repair at the first epoch *)

(** [new_row['Q']] starts at [0] and only goes down. *)
Lemma boundary_loop_Qfix (inv : gset nat) (t : Z) (dfs : list series) (k : nat)
    (acc row : Row) :
  boundary_loop inv t k dfs acc = Some row →
  Qfix row ≤ Qfix acc ∧
  ((∀ df r, df ∈ dfs → df !! t = Some r → Qfix acc ≤ Qfix r) →
   Qfix row = Qfix acc).
Proof.
  revert k acc. induction dfs as [|df dfs IH]; intros k acc H; simpl in H.
  - injection H as <-. split; [lia | done].
  - unfold boundary_turn in H.
    destruct (decide (k ∈ inv)); simpl in H.
    + destruct (IH _ _ H) as [Hle Heq]. split; [done|].
      intros Hall. apply Heq. intros d r Hd. apply Hall. by right.
    + destruct (df !! t) as [r|] eqn:Er; simpl in H; [|done].
      destruct (IH _ _ H) as [Hle Heq]. simpl in Hle, Heq. split; [lia|].
      intros Hall.
      assert (Qfix acc ≤ Qfix r) as Hr by (apply (Hall df); [left | done]).
      rewrite Heq; [lia|]. intros d q Hd Hq.
      assert (Qfix acc ≤ Qfix q) by (apply (Hall d); [by right | done]). lia.
Qed.

(** The fix quality that the first branch writes is never positive, and
    it is [0] as soon as no rover has a negative one. *)
Lemma boundary_row_Qfix (inv : gset nat) (t : Z) (dfs : list series)
    (new_row : Row) :
  boundary_row inv t dfs = Some new_row →
  Qfix new_row ≤ 0 ∧
  ((∀ df r, df ∈ dfs → df !! t = Some r → 0 ≤ Qfix r) → Qfix new_row = 0).
Proof.
  unfold boundary_row. intros H.
  destruct (boundary_loop inv t 0 dfs zero_row) as [acc|] eqn:E;
    simpl in H; [|done].
  unfold boundary_mean in H.
  destruct (_ =? 0); [done|]. injection H as <-. simpl.
  apply (boundary_loop_Qfix _ _ _ _ _ _ E).
Qed.

(** C4 at the scenario of the design document: the first rover alone is
    invalid at the first epoch; the row written for it has the mean [x]
    101 and the greatest [sdx] 2, but its fix quality is [0] where the
    least of the valid rovers is [1], and its [sdxy] is [0] where the
    greatest of the valid rovers is [-1]. *)
Theorem boundary_repair_keeps_zero :
  ∃ dfs' new_row,
    window start_dfs = (At 0, At second) ∧
    check_validity 0 start_dfs all_20 = Some ({[ 0%nat ]} : gset nat) ∧
    repair 0 0 {[ 0%nat ]} start_dfs = Some dfs' ∧
    row_at dfs' 0 0 = Some new_row ∧
    (x_ecef new_row == 101)%Q ∧ (sdx new_row == 2)%Q ∧
    Qfix new_row = 0 ∧
    Z.min (Qfix start_rowB) (Qfix start_rowC) = 1 ∧
    (sdxy new_row == 0)%Q ∧
    is_max_of (-1) [sdxy start_rowB; sdxy start_rowC].
Proof.
  eexists _, _.
  split; [by vm_compute|].
  split; [apply (bool_decide_unpack _); by vm_compute|].
  split; [by vm_compute|].
  split; [by vm_compute|].
  split; [by vm_compute|]. split; [by vm_compute|].
  split; [by vm_compute|]. split; [by vm_compute|].
  split; [by vm_compute|].
  split.
  - exists (-1)%Q. split; [left | reflexivity].
  - intros v [-> | ->%list_elem_of_singleton]%elem_of_cons; by vm_compute.
Qed.

(** ** The epoch loop *)

(** Reading the row of a rover that has none at [t] raises. *)
Lemma fuse_missing (t : Z) (dfs : list series) (k : nat) (df : series) :
  dfs !! k = Some df → df !! t = None → fuse t dfs = None.
Proof.
  intros Hk Hnone. destruct (fuse t dfs) as [row|] eqn:E; [|done].
  apply fuse_Some in E as (_ & rows & Hrows & _).
  assert (is_Some (rows_at t dfs)) as Hsome by (by eexists).
  destruct (proj1 (rows_at_is_Some t dfs) Hsome k df Hk) as [r Hr]. congruence.
Qed.

(** At the first epoch nothing is repaired unless exactly one rover is
    invalid. *)
Lemma repair_rover_first_epoch_several (t : Z) (inv : gset nat)
    (dfs : list series) (r : nat) :
  size inv ≠ 1%nat → repair_rover t t inv dfs r = Some dfs.
Proof.
  intros Hsize. unfold repair_rover.
  replace (size inv =? 1)%nat with false by (symmetry; by apply Nat.eqb_neq).
  by rewrite andb_false_r, Z.ltb_irrefl.
Qed.

Lemma repair_first_epoch_several (order : list nat) (t : Z) (inv : gset nat)
    (dfs : list series) :
  size inv ≠ 1%nat → repair_in order t t inv dfs = Some dfs.
Proof.
  intros Hsize. unfold repair_in. induction order as [|r order IH]; [done|].
  cbn [for_each]. rewrite repair_rover_first_epoch_several by done.
  simpl. apply IH.
Qed.

(** C9: when, at an epoch [t] below [max_gpst], a rover still has no row
    at [t] after the repair phase, the body of the loop raises: the run
    ends at [t] with the rows appended before, and no row for [t]. *)
Theorem unrepaired_gap_raises (fuel : nat) (min_gpst max_gpst t : Z)
    (th : thresholds) (dataframes dataframes' : list series)
    (final_df : list (Z * Row)) (invalid_rovers : gset nat) (k : nat)
    (df : series) :
  t < max_gpst →
  check_validity t dataframes th = Some invalid_rovers →
  repair min_gpst t invalid_rovers dataframes = Some dataframes' →
  dataframes' !! k = Some df → df !! t = None →
  fuse t dataframes' = None ∧
  epoch min_gpst t th dataframes = None ∧
  epoch_loop (S fuel) min_gpst max_gpst th t dataframes final_df
  = Raised t final_df.
Proof.
  intros Hlt Hcheck Hrepair Hk Hnone.
  pose proof (fuse_missing t dataframes' k df Hk Hnone) as Hfuse.
  assert (epoch min_gpst t th dataframes = None) as Hepoch.
  { unfold epoch. rewrite Hcheck. simpl. rewrite Hrepair. simpl.
    by rewrite Hfuse. }
  split; [done|]. split; [done|].
  cbn [epoch_loop]. rewrite Hepoch.
  by replace (t <? max_gpst) with true by (symmetry; by apply Z.ltb_lt).
Qed.

Lemma unrepaired_gap_raises_witness :
  fuse 0 late_dfs = None ∧
  epoch 0 0 all_20 late_dfs = None ∧
  epoch_loop 3 0 (2 * second) all_20 0 late_dfs [] = Raised 0 [].
Proof.
  apply (unrepaired_gap_raises 2 0 (2 * second) 0 all_20 late_dfs late_dfs []
           {[ 0%nat; 1%nat ]} 0 late_df).
  - reflexivity.
  - apply (bool_decide_unpack _). by vm_compute.
  - by vm_compute.
  - reflexivity.
  - reflexivity.
Defined.

(** The run of the whole module on these DataFrames: two rovers have no
    row at the first epoch of the window, nothing is repaired, and the
    run raises at that epoch with an empty [final_df]. *)
Example two_late_rovers_raise : run all_20 late_dfs = Raised 0 [].
Proof. by vm_compute. Qed.

(** The fuel of [algorithm] is enough: the loop is never cut short. *)
Lemma epoch_loop_fuel (fuel : nat) (min_gpst max_gpst : Z) (th : thresholds)
    (cur : Z) (dfs : list series) (out : list (Z * Row)) :
  (1 ≤ fuel)%nat →
  (cur < max_gpst → (max_gpst - cur) / second + 1 < Z.of_nat fuel) →
  epoch_loop fuel min_gpst max_gpst th cur dfs out ≠ OutOfFuel.
Proof.
  revert cur dfs out.
  induction fuel as [|fuel IH]; intros cur dfs out H1 Hfuel; [lia|].
  cbn [epoch_loop]. destruct (Z.ltb_spec cur max_gpst) as [Hlt | Hge]; [|done].
  destruct (epoch min_gpst cur th dfs) as [[dfs' row]|]; [|done].
  specialize (Hfuel Hlt).
  assert (0 ≤ (max_gpst - cur) / second)
    by (apply Z.div_pos; unfold second; lia).
  assert ((max_gpst - (cur + second)) / second = (max_gpst - cur) / second - 1)
    as Hdiv.
  { replace (max_gpst - (cur + second))
      with (max_gpst - cur + (-1) * second) by lia.
    rewrite Z.div_add by (unfold second; lia). lia. }
  apply IH; [lia|]. intros Hlt'. rewrite Hdiv. lia.
Qed.

Lemma algorithm_fuel (min_gpst max_gpst : Z) (th : thresholds)
    (dfs : list series) :
  algorithm min_gpst max_gpst th dfs ≠ OutOfFuel.
Proof.
  unfold algorithm, turns. apply epoch_loop_fuel; [lia|].
  intros Hlt.
  assert (0 ≤ (max_gpst - min_gpst) / second)
    by (apply Z.div_pos; unfold second; lia).
  lia.
Qed.

(** The timestamps of the rows that a finished loop appended: [cur],
    [cur + second], ..., all of them below [max_gpst], up to the first
    that is not. *)
Lemma epoch_loop_output (fuel : nat) (min_gpst max_gpst : Z) (th : thresholds)
    (cur : Z) (dfs dfs' : list series) (out out' : list (Z * Row)) :
  epoch_loop fuel min_gpst max_gpst th cur dfs out = Finished dfs' out' →
  ∃ n : nat,
    out'.*1 = out.*1 ++ epochs_from cur n ∧
    (∀ t, t ∈ epochs_from cur n → cur ≤ t < max_gpst) ∧
    max_gpst ≤ cur + Z.of_nat n * second.
Proof.
  revert cur dfs out.
  induction fuel as [|fuel IH]; intros cur dfs out H; [done|].
  cbn [epoch_loop] in H. destruct (Z.ltb_spec cur max_gpst) as [Hlt | Hge].
  - destruct (epoch min_gpst cur th dfs) as [[dfs1 row]|]; [|done].
    destruct (IH _ _ _ H) as (n & Hout & Hin & Hmax).
    exists (S n). split; [|split].
    + rewrite Hout, fmap_app, <- app_assoc. f_equal.
      unfold epochs_from. simpl. f_equal; [lia|].
      rewrite <- fmap_S_seq, <- list_fmap_compose.
      apply list_fmap_ext. intros _ k _. simpl. lia.
    + intros t Ht. unfold epochs_from in Ht. simpl in Ht.
      apply elem_of_cons in Ht as [-> | Ht]; [lia|].
      rewrite <- fmap_S_seq, <- list_fmap_compose in Ht.
      assert (t ∈ epochs_from (cur + second) n) as Ht'.
      { unfold epochs_from.
        erewrite list_fmap_ext; [exact Ht|]. intros _ k _. simpl. lia. }
      specialize (Hin t Ht'). unfold second in *. lia.
    + lia.
  - injection H as <- <-. exists 0%nat. split; [|split].
    + by rewrite app_nil_r.
    + intros t Ht. by apply elem_of_nil in Ht.
    + lia.
Qed.

(** No run of [algorithm] appends a row for [max_gpst]. *)
Lemma algorithm_omits_max_gpst (min_gpst max_gpst : Z) (th : thresholds)
    (dfs dfs' : list series) (out : list (Z * Row)) :
  algorithm min_gpst max_gpst th dfs = Finished dfs' out →
  max_gpst ∉ out.*1.
Proof.
  intros (n & Hout & Hin & _)%epoch_loop_output. rewrite Hout. simpl.
  intros Hmax. specialize (Hin _ Hmax). lia.
Qed.

(** C2 at two rovers with rows at [0], [second] and [2 * second]: the
    window is from [0] to [2 * second]; the run appends rows for [0] and
    for [second], and none for [2 * second], the last epoch of the
    window. *)
Theorem last_epoch_is_not_fused :
  ∃ dfs' final_df,
    window even_dfs = (At 0, At (2 * second)) ∧
    run all_20 even_dfs = Finished dfs' final_df ∧
    final_df.*1 = [0; second] ∧
    2 * second ∉ final_df.*1.
Proof.
  eexists _, _. split; [by vm_compute|]. split; [by vm_compute|].
  split; [by vm_compute|].
  intros [? | [? | ?%elem_of_nil]%elem_of_cons]%elem_of_cons; done.
Qed.

(** ** Position log reader *)

(** Induction on a list, two elements at a time. *)
Lemma list_pair_ind {A : Type} (P : list A → Prop) :
  P [] → (∀ x, P [x]) → (∀ x y l, P l → P (x :: y :: l)) → ∀ l, P l.
Proof.
  intros Hnil Hone Hstep l.
  assert (P l ∧ ∀ x, P (x :: l)) as [H _]; [|done].
  induction l as [|y l [IH1 IH2]]; [by split|].
  split; [apply IH2|]. intros x. by apply Hstep.
Qed.

(** A file without the column header line is read to its end, where
    [next] raises. *)
Lemma skip_header_no_marker (file : list string) :
  Forall not_marker file → Reader.skip_header file = None.
Proof.
  induction file as [| line | line line' rest IH] using list_pair_ind;
    intros Hall.
  - done.
  - apply Forall_cons in Hall as [Hline _]. simpl.
    unfold not_marker in Hline. by rewrite Hline.
  - apply Forall_cons in Hall as [Hline Hall].
    apply Forall_cons in Hall as [_ Hall]. simpl.
    unfold not_marker in Hline. rewrite Hline. by apply IH.
Qed.

(** After an even number of header lines the column header line is
    found and the lines after it are the body. *)
Lemma skip_header_even (header body : list string) (line : string) :
  Forall not_marker header → Nat.Even (length header) →
  Reader.startswith Reader.marker (Reader.strip line) = true →
  Reader.skip_header (header ++ line :: body) = Some body.
Proof.
  intros Hall Heven Hline. revert Hall Heven.
  induction header as [| h | h h' rest IH] using list_pair_ind;
    intros Hall Heven.
  - simpl. by rewrite Hline.
  - destruct Heven as [k Hk]. simpl in Hk. lia.
  - apply Forall_cons in Hall as [Hh Hall].
    apply Forall_cons in Hall as [_ Hall]. simpl.
    unfold not_marker in Hh. rewrite Hh. apply IH; [done|].
    destruct Heven as [k Hk]. simpl in Hk. exists (k - 1)%nat. lia.
Qed.

(** After an odd number of header lines the column header line is taken
    by [next] without being tested, and the reader raises at the end of
    the file. *)
Lemma skip_header_odd (header body : list string) (line : string) :
  Forall not_marker header → Nat.Odd (length header) →
  Forall not_marker body →
  Reader.skip_header (header ++ line :: body) = None.
Proof.
  intros Hall Hodd Hbody. revert Hall Hodd.
  induction header as [| h | h h' rest IH] using list_pair_ind;
    intros Hall Hodd.
  - destruct Hodd as [k Hk]. simpl in Hk. lia.
  - apply Forall_cons in Hall as [Hh _]. simpl.
    unfold not_marker in Hh. rewrite Hh. by apply skip_header_no_marker.
  - apply Forall_cons in Hall as [Hh Hall].
    apply Forall_cons in Hall as [_ Hall]. simpl.
    unfold not_marker in Hh. rewrite Hh. apply IH; [done|].
    destruct Hodd as [k Hk]. simpl in Hk. exists (k - 1)%nat. lia.
Qed.

(** After an even number of header lines every line of the body gives
    one row, in order. *)
Lemma create_dataframe_even (header body : list string) (line : string)
    (rows : list (list string)) :
  Forall not_marker header → Nat.Even (length header) →
  Reader.startswith Reader.marker (Reader.strip line) = true →
  Reader.create_dataframe (header ++ line :: body) = Some rows →
  length rows = length body ∧
  ∀ i l, body !! i = Some l → Reader.parse_line l = rows !! i.
Proof.
  intros Hall Heven Hline. unfold Reader.create_dataframe.
  rewrite (skip_header_even header body line Hall Heven Hline). simpl.
  intros Hrows. split.
  - symmetry. by eapply length_mapM.
  - intros i l Hl. apply mapM_Some in Hrows.
    destruct (Forall2_lookup_l _ _ _ _ _ Hrows Hl) as (row & -> & ->). done.
Qed.

Lemma create_dataframe_odd (header body : list string) (line : string) :
  Forall not_marker header → Nat.Odd (length header) →
  Forall not_marker body →
  Reader.create_dataframe (header ++ line :: body) = None.
Proof.
  intros Hall Hodd Hbody. unfold Reader.create_dataframe.
  by rewrite (skip_header_odd header body line Hall Hodd Hbody).
Qed.

(** C6 at a log with one header line before the column header line:
    [readline] takes the header line, [next] takes the column header
    line untested, the epoch line is tested as a header line, and the
    reader raises at the end of the file.  With two header lines the
    same epoch line gives one row. *)
Theorem one_header_line_breaks_reader :
  not_marker program_line ∧ not_marker inp_line ∧
  Reader.startswith Reader.marker (Reader.strip column_line) = true ∧
  Reader.parse_line epoch_line = Some epoch_cells ∧
  Reader.skip_header one_header_log = None ∧
  Reader.create_dataframe one_header_log = None ∧
  Reader.create_dataframe two_header_log = Some [epoch_cells].
Proof. repeat split; by vm_compute. Qed.

(** ** The order of the repairs *)

(** A loop whose turns commute gives the same result in any order. *)
Lemma for_each_Permutation {A B : Type} (f : A → B → option A) (l1 l2 : list B) :
  (∀ a x y, x ≠ y → (f a x ≫= λ a', f a' y) = (f a y ≫= λ a', f a' x)) →
  l1 ≡ₚ l2 → NoDup l1 → ∀ a, for_each f a l1 = for_each f a l2.
Proof.
  intros Hswap Hperm. induction Hperm as [|x l1 l2 Hperm IH|x y l|l1 l2 l3 H12 IH12 H23 IH23];
    intros Hnd a.
  - done.
  - apply NoDup_cons in Hnd as [_ Hnd]. simpl.
    destruct (f a x) as [a'|]; simpl; [by apply IH | done].
  - apply NoDup_cons in Hnd as [Hy _].
    assert (y ≠ x) as Hne by (intros ->; apply Hy; left).
    cbn [for_each]. specialize (Hswap a y x Hne).
    destruct (f a y) as [a1|], (f a x) as [a2|]; simpl in *.
    + destruct (f a1 x) as [a3|], (f a2 y) as [a4|]; simpl; congruence.
    + destruct (f a1 x); [done | done].
    + destruct (f a2 y); [done | done].
    + done.
  - rewrite IH12 by done. apply IH23. by rewrite <- H12.
Qed.

(** After the first epoch the repair of a rover reads and writes the
    DataFrame of that rover only, so that two repairs commute. *)
Lemma repair_rover_swap (min_gpst t : Z) (inv : gset nat) (dfs : list series)
    (x y : nat) :
  x ≠ y → ((t =? min_gpst) && (size inv =? 1)%nat) = false →
  (repair_rover min_gpst t inv dfs x ≫= λ d, repair_rover min_gpst t inv d y)
  = (repair_rover min_gpst t inv dfs y ≫= λ d, repair_rover min_gpst t inv d x).
Proof.
  intros Hne Hcond. unfold repair_rover. rewrite Hcond.
  destruct (min_gpst <? t); [|done].
  destruct (dfs !! x) as [dx|] eqn:Ex; destruct (dfs !! y) as [dy|] eqn:Ey;
    simpl; [| | |done].
  - destruct (loc dx (prev_gpst dx t)) as [px|] eqn:E1;
      destruct (loc dx (next_gpst dx t)) as [nx|] eqn:E2;
      destruct (loc dy (prev_gpst dy t)) as [py|] eqn:E3;
      destruct (loc dy (next_gpst dy t)) as [ny|] eqn:E4; simpl;
      rewrite ?list_lookup_insert_ne by congruence;
      rewrite ?Ex, ?Ey; simpl; rewrite ?E1, ?E2, ?E3, ?E4; simpl; try done.
    f_equal. apply list_insert_insert_ne. congruence.
  - destruct (loc dx (prev_gpst dx t)) as [px|] eqn:E1;
      destruct (loc dx (next_gpst dx t)) as [nx|] eqn:E2; simpl; try done.
    rewrite list_lookup_insert_ne by congruence. by rewrite Ey.
  - destruct (loc dy (prev_gpst dy t)) as [py|] eqn:E3;
      destruct (loc dy (next_gpst dy t)) as [ny|] eqn:E4; simpl; try done.
    rewrite list_lookup_insert_ne by congruence. by rewrite Ex.
Qed.

(** The repair phase gives the same DataFrames whatever the order in
    which the set [invalid_rovers] is iterated. *)
Lemma repair_order_irrelevant (order : list nat) (min_gpst t : Z)
    (inv : gset nat) (dfs : list series) :
  NoDup order → (∀ r, r ∈ order ↔ r ∈ inv) →
  repair_in order min_gpst t inv dfs = repair min_gpst t inv dfs.
Proof.
  intros Hnd Hin. unfold repair.
  assert (order ≡ₚ elements inv) as Hperm.
  { apply NoDup_Permutation; [done | apply NoDup_elements|].
    intros r. by rewrite Hin, elem_of_elements. }
  destruct ((t =? min_gpst) && (size inv =? 1)%nat) eqn:Hcond.
  - apply andb_true_iff in Hcond as [_ Hsize%Nat.eqb_eq].
    apply size_1_elem_of in Hsize as [r Hr%leibniz_equiv].
    rewrite Hr, elements_singleton in Hperm |- *.
    by apply Permutation_singleton_r in Hperm as ->.
  - unfold repair_in. apply for_each_Permutation; [|done..].
    intros d x y Hne. by apply repair_rover_swap.
Qed.

(** ** The window of DataFrames that may be empty *)



(** [NaT] is never replaced: [NaT == 0] is false and every comparison
    with [NaT] is false. *)
Lemma window_loop_NaT (rest : list series) :
  foldl window_step (NaT, NaT) rest = (NaT, NaT).
Proof.
  induction rest as [|df rest IH]; [done|]. cbn [foldl].
  replace (window_step (NaT, NaT) df) with (NaT, NaT); [done|].
  unfold window_step. simpl. by destruct (index_min _), (index_max _).
Qed.





(** When the DataFrame of the first rover is empty, [min_gpst] and
    [max_gpst] are [NaT] whatever the other rovers logged, the test of
    the [while] loop is false from the start, and [final_df] stays
    empty. *)
Theorem empty_first_rover_empties_run (th : thresholds) (rest : list series) :
  window (∅ :: rest) = (NaT, NaT) ∧
  run th (∅ :: rest) = Finished (∅ :: rest) [].
Proof.
  assert (window (∅ :: rest) = (NaT, NaT)) as Hw.
  { unfold window. simpl. apply window_loop_NaT. }
  split; [done|]. unfold run. by rewrite Hw.
Qed.

(** ** Validity check: the thresholds that are missing *)

(** A loop raises as soon as one of its turns raises whatever it is
    given, and raises only when one of its turns does. *)
Lemma for_each_raises {A B : Type} (f : A → B → option A) (l : list B) (b : B)
    (a : A) :
  b ∈ l → (∀ a', f a' b = None) → for_each f a l = None.
Proof.
  intros Hb Hnone. revert a. induction l as [|x l IH]; intros a.
  - by apply elem_of_nil in Hb.
  - simpl. apply elem_of_cons in Hb as [<- | Hb]; [by rewrite Hnone|].
    destruct (f a x) as [a'|]; simpl; [by apply IH | done].
Qed.

Lemma for_each_None {A B : Type} (f : A → B → option A) (l : list B) (a : A) :
  for_each f a l = None → ∃ b a', b ∈ l ∧ f a' b = None.
Proof.
  revert a. induction l as [|x l IH]; intros a H; [done|].
  simpl in H. destruct (f a x) as [a'|] eqn:E; simpl in H.
  - destruct (IH a' H) as (b & a0 & Hb & Hnone).
    exists b, a0. split; [by right | done].
  - exists x, a. split; [left | done].
Qed.

(** The turn of the inner loop for the pair [(i, j)] raises exactly when
    [j] comes after [i], has a row at [t], and [thesholds] has no entry
    for the pair. *)
Lemma check_pair_None (t : Z) (dfs : list series) (th : thresholds)
    (i : nat) (rI : Row) (inv : gset nat) (j : nat) :
  check_pair t dfs th i rI inv j = None ↔
  (i < j)%nat ∧ is_Some (row_at dfs j t) ∧ th !! (i, j) = None.
Proof.
  unfold check_pair. destruct (i <? j)%nat eqn:Eij.
  - apply Nat.ltb_lt in Eij. destruct (row_at dfs j t) as [rJ|].
    + destruct (th !! (i, j)) as [thr|]; simpl.
      * split; [done | by intros (_ & _ & ?)].
      * split; [by intros _; split; [|split; [eexists|]] | done].
    + split; [done | by intros (_ & [? ?] & _)].
  - apply Nat.ltb_ge in Eij. split; [done | intros (? & _); lia].
Qed.

Lemma check_rover_None (t : Z) (dfs : list series) (th : thresholds)
    (inv : gset nat) (i : nat) :
  check_rover t dfs th inv i = None ↔
  is_Some (row_at dfs i t) ∧
  ∃ j, (i < j)%nat ∧ is_Some (row_at dfs j t) ∧ th !! (i, j) = None.
Proof.
  unfold check_rover. destruct (row_at dfs i t) as [rI|] eqn:ErI.
  - split.
    + intros (j & inv' & _ & Hj%check_pair_None)%for_each_None.
      split; [by eexists | by exists j].
    + intros (_ & j & Hij & Hj & Hth).
      apply (for_each_raises _ _ j).
      * apply elem_of_seq. apply row_at_lt in Hj. lia.
      * intros inv'. by apply check_pair_None.
  - split; [done | by intros [[? ?] _]].
Qed.

(** Line 157 raises [KeyError] exactly when two rovers both have a row
    at [t] and [thesholds] has no entry for the pair, keyed with the
    earlier rover first; nothing else makes the check raise. *)
Theorem missing_threshold_raises (t : Z) (dataframes : list series)
    (th : thresholds) :
  check_validity t dataframes th = None ↔
  ∃ i j, (i < j)%nat ∧ is_Some (row_at dataframes i t) ∧
         is_Some (row_at dataframes j t) ∧ th !! (i, j) = None.
Proof.
  unfold check_validity. split.
  - intros (i & inv & _ & (Hi & j & Hij & Hj & Hth)%check_rover_None)%for_each_None.
    by exists i, j.
  - intros (i & j & Hij & Hi & Hj & Hth).
    apply (for_each_raises _ _ i).
    + apply elem_of_seq. apply row_at_lt in Hi. lia.
    + intros inv. apply check_rover_None. split; [done | by exists j].
Qed.

(** A check that returns a set found every threshold it read. *)
Lemma check_validity_Some_covers (t : Z) (dfs : list series) (th : thresholds)
    (inv : gset nat) :
  check_validity t dfs th = Some inv → covers t dfs th.
Proof.
  intros Hcheck i j Hij Hi Hj.
  destruct (th !! (i, j)) as [thr|] eqn:Eth; [by eexists|].
  assert (check_validity t dfs th = None) as Hnone; [|congruence].
  unfold check_validity. apply (for_each_raises _ _ i).
  - apply elem_of_seq. apply row_at_lt in Hi. lia.
  - intros inv'. apply check_rover_None. split; [done | by exists j].
Qed.

(** The members of the set that a check returned. *)
Lemma check_validity_Some (t : Z) (dfs : list series) (th : thresholds)
    (inv : gset nat) :
  check_validity t dfs th = Some inv →
  ∀ r, r ∈ inv ↔
       (r < length dfs)%nat ∧
       (row_at dfs r t = None
        ∨ ∃ s, violates t dfs th r s ∨ violates t dfs th s r).
Proof.
  intros Hcheck.
  destruct (check_validity_covers t dfs th
              (check_validity_Some_covers t dfs th inv Hcheck))
    as (inv' & Hcheck' & Hin).
  rewrite Hcheck in Hcheck'. by injection Hcheck' as <-.
Qed.

(** ** Validity check: thresholds that are raised *)

Lemma sqrt_gt_mono (sq thr thr' : Q) :
  (thr <= thr')%Q → sqrt_gt sq thr' = true → sqrt_gt sq thr = true.
Proof.
  unfold sqrt_gt. rewrite !orb_true_iff, !negb_true_iff. intros Hle H.
  destruct (Qle_bool 0 thr) eqn:E0; [right | by left].
  apply Qle_bool_iff in E0.
  destruct (Qle_bool sq (thr * thr)) eqn:E; [|done].
  apply Qle_bool_iff in E. destruct H as [H | H].
  - assert (¬ (0 <= thr')%Q) by (intros ?%Qle_bool_iff; congruence). lra.
  - assert (¬ (sq <= thr' * thr')%Q) by (intros ?%Qle_bool_iff; congruence).
    nra.
Qed.

(** Raising thresholds never makes more rovers invalid: when the check
    succeeds with [th], it succeeds with every looser [th'], and the set
    it returns with [th'] is within the set it returns with [th]. *)
Theorem looser_thresholds_invalidate_fewer (t : Z) (dataframes : list series)
    (th th' : thresholds) (invalid_rovers : gset nat) :
  looser th th' →
  check_validity t dataframes th = Some invalid_rovers →
  ∃ invalid_rovers',
    check_validity t dataframes th' = Some invalid_rovers' ∧
    invalid_rovers' ⊆ invalid_rovers.
Proof.
  intros Hloose Hcheck.
  pose proof (check_validity_Some_covers _ _ _ _ Hcheck) as Hcov.
  assert (covers t dataframes th') as Hcov'.
  { intros i j Hij Hi Hj. destruct (Hcov i j Hij Hi Hj) as [thr Hthr].
    destruct (Hloose _ _ Hthr) as (thr' & -> & _). by eexists. }
  destruct (check_validity_covers t dataframes th' Hcov') as (inv' & Hcheck' & Hin').
  exists inv'. split; [done|].
  assert (∀ i j, violates t dataframes th' i j → violates t dataframes th i j)
    as Hviol.
  { intros i j (Hij & rI & rJ & thr' & HrI & HrJ & Hthr' & Hd).
    destruct (Hcov i j Hij) as [thr Hthr]; [by rewrite HrI | by rewrite HrJ |].
    destruct (Hloose _ _ Hthr) as (thr'' & Hthr'' & Hle).
    rewrite Hthr' in Hthr''. injection Hthr'' as <-.
    split; [done|]. exists rI, rJ, thr. repeat split; try done.
    unfold dist_gt in *. by eapply sqrt_gt_mono. }
  intros r [Hlt Hr]%Hin'. apply (check_validity_Some _ _ _ _ Hcheck).
  split; [done|]. destruct Hr as [? | (s & [Hv | Hv])]; [by left | right..].
  - exists s. left. by apply Hviol.
  - exists s. right. by apply Hviol.
Qed.

Lemma looser_thresholds_invalidate_fewer_witness :
  ∃ invalid_rovers',
    check_validity 0 far_dfs all_30 = Some invalid_rovers' ∧
    invalid_rovers' ⊆ ({[ 0%nat; 1%nat ]} : gset nat).
Proof.
  apply (looser_thresholds_invalidate_fewer 0 far_dfs all_20 all_30).
  - intros p thr H. exists 30%Q. unfold all_20 in H.
    apply lookup_insert_Some in H as [[<- <-] | [_ H]]; [by split|].
    apply lookup_insert_Some in H as [[<- <-] | [_ H]]; [by split|].
    apply lookup_singleton_Some in H as [<- <-]. by split.
  - apply (bool_decide_unpack _). by vm_compute.
Defined.

(** With thresholds of thirty metres the pair that was 25 m apart is
    valid: the set is empty. *)
Example far_pair_is_valid_at_30 :
  check_validity 0 far_dfs all_30 = Some (∅ : gset nat).
Proof. apply (bool_decide_unpack _). by vm_compute. Qed.

(** ** The rows of [final_df] *)

Lemma length_epochs_from (cur : Z) (n : nat) : length (epochs_from cur n) = n.
Proof. unfold epochs_from. by rewrite length_fmap, length_seq. Qed.

(** When [algorithm] returns, [final_df] holds one row for each of the
    epochs [min_gpst], [min_gpst + second], ... below [max_gpst], in
    that order and no other: the span of the window in seconds, rounded
    up, is the number of its rows. *)
Theorem final_df_has_one_row_per_epoch (min_gpst max_gpst : Z) (th : thresholds)
    (dataframes dataframes' : list series) (final_df : list (Z * Row)) :
  algorithm min_gpst max_gpst th dataframes = Finished dataframes' final_df →
  final_df.*1 = epochs_from min_gpst (length final_df) ∧
  Z.of_nat (length final_df)
  = Z.max 0 ((max_gpst - min_gpst + second - 1) / second).
Proof.
  intros (n & Hout & Hin & Hmax)%epoch_loop_output. simpl in Hout.
  assert (length final_df = n) as Hlen.
  { rewrite <- (length_fmap fst), Hout. apply length_epochs_from. }
  rewrite Hlen. split; [done|].
  destruct n as [|n].
  - assert ((max_gpst - min_gpst + second - 1) / second ≤ 0); [|lia].
    apply Z.lt_succ_r, Z.div_lt_upper_bound; unfold second in *; lia.
  - assert (min_gpst + Z.of_nat n * second < max_gpst) as Hlast.
    { apply Hin. unfold epochs_from. apply list_elem_of_fmap.
      exists n. split; [done|]. apply elem_of_seq. lia. }
    assert ((max_gpst - min_gpst + second - 1) / second = Z.of_nat (S n));
      [|lia].
    symmetry. apply Z.div_unique with
      (r := max_gpst - min_gpst + second - 1 - second * Z.of_nat (S n));
      unfold second in *; lia.
Qed.

Lemma final_df_has_one_row_per_epoch_witness :
  ∃ dataframes' final_df,
    algorithm 0 (2 * second) all_20 even_dfs = Finished dataframes' final_df ∧
    final_df.*1 = epochs_from 0 (length final_df) ∧
    Z.of_nat (length final_df) = Z.max 0 ((2 * second - 0 + second - 1) / second).
Proof.
  eexists _, _. split; [by vm_compute|].
  eapply (final_df_has_one_row_per_epoch 0 (2 * second) all_20 even_dfs).
  by vm_compute.
Defined.

(** ** What a repair leaves alone *)

Lemma same_but_refl (t : Z) (inv : gset nat) (dfs : list series) :
  same_but t inv dfs dfs.
Proof. split; [done|]. intros k df Hk. by exists df. Qed.

Lemma same_but_trans (t : Z) (inv : gset nat) (dfs1 dfs2 dfs3 : list series) :
  same_but t inv dfs1 dfs2 → same_but t inv dfs2 dfs3 → same_but t inv dfs1 dfs3.
Proof.
  intros [Hlen12 H12] [Hlen23 H23]. split; [congruence|].
  intros k df1 Hk. destruct (H12 k df1 Hk) as (df2 & Hk2 & Hu12 & Ht12 & Hn12).
  destruct (H23 k df2 Hk2) as (df3 & Hk3 & Hu23 & Ht23 & Hn23).
  exists df3. split; [done|]. split; [|split].
  - intros u Hu. by rewrite Hu23, Hu12.
  - intros H. by apply Ht23, Ht12.
  - intros H. by rewrite Hn23, Hn12.
Qed.

(** A repair either leaves the DataFrames as they are or writes one row
    at [t] of the DataFrame of the rover repaired. *)
Lemma repair_rover_writes (min_gpst t : Z) (inv : gset nat)
    (dfs dfs' : list series) (r : nat) :
  repair_rover min_gpst t inv dfs r = Some dfs' →
  dfs' = dfs ∨
  ∃ df row, dfs !! r = Some df ∧ dfs' = <[r := <[t := row]> df]> dfs.
Proof.
  unfold repair_rover. intros H.
  destruct ((t =? min_gpst) && (size inv =? 1)%nat).
  - destruct (boundary_row inv t dfs) as [row|]; simpl in H; [|done].
    destruct (dfs !! r) as [df|] eqn:Er; simpl in H; [|done].
    injection H as <-. right. by exists df, row.
  - destruct (min_gpst <? t); [|injection H as <-; by left].
    destruct (dfs !! r) as [df|] eqn:Er; simpl in H; [|done].
    destruct (loc df (prev_gpst df t)) as [p|]; simpl in H; [|done].
    destruct (loc df (next_gpst df t)) as [n|]; simpl in H; [|done].
    injection H as <-. right. by eexists df, _.
Qed.

Lemma repair_rover_same_but (min_gpst t : Z) (inv : gset nat)
    (dfs dfs' : list series) (r : nat) :
  r ∈ inv → repair_rover min_gpst t inv dfs r = Some dfs' →
  same_but t inv dfs dfs'.
Proof.
  intros Hr [-> | (df & row & Hdf & ->)]%repair_rover_writes;
    [apply same_but_refl|].
  split; [by rewrite length_insert|]. intros k d Hk.
  destruct (decide (k = r)) as [-> | Hne].
  - rewrite Hdf in Hk. injection Hk as <-.
    exists (<[t := row]> df). split; [|split; [|split]].
    + apply list_lookup_insert_eq. by eapply lookup_lt_Some.
    + intros u Hu. by rewrite lookup_insert_ne.
    + intros _. rewrite lookup_insert_eq. by eexists.
    + done.
  - exists d. by rewrite list_lookup_insert_ne.
Qed.

Lemma repair_in_same_but (order : list nat) (min_gpst t : Z) (inv : gset nat)
    (dfs dfs' : list series) :
  (∀ r, r ∈ order → r ∈ inv) →
  repair_in order min_gpst t inv dfs = Some dfs' → same_but t inv dfs dfs'.
Proof.
  unfold repair_in. revert dfs.
  induction order as [|r order IH]; intros dfs Hin H.
  - injection H as <-. apply same_but_refl.
  - cbn [for_each] in H.
    destruct (repair_rover min_gpst t inv dfs r) as [dfs1|] eqn:E;
      simpl in H; [|done].
    apply (same_but_trans _ _ _ dfs1).
    + apply (repair_rover_same_but min_gpst _ _ _ _ r); [apply Hin; left | done].
    + apply IH; [|done]. intros r' Hr'. apply Hin. by right.
Qed.

(** The repair phase of an epoch changes nothing but rows at that epoch
    of the rovers found invalid: it keeps the number of DataFrames,
    leaves every row at another timestamp as it was, removes no row,
    and does not touch the DataFrame of a rover that is not in
    [invalid_rovers]. *)
Theorem repair_touches_only_the_epoch (min_gpst t : Z)
    (invalid_rovers : gset nat) (dataframes dataframes' : list series) :
  repair min_gpst t invalid_rovers dataframes = Some dataframes' →
  same_but t invalid_rovers dataframes dataframes'.
Proof.
  apply repair_in_same_but. intros r. by rewrite elem_of_elements.
Qed.

Lemma repair_touches_only_the_epoch_witness :
  ∃ dataframes',
    repair second (2 * second) {[ 2%nat ]} holed_dfs = Some dataframes' ∧
    same_but (2 * second) {[ 2%nat ]} holed_dfs dataframes'.
Proof.
  eexists. split; [by vm_compute|].
  apply (repair_touches_only_the_epoch second). by vm_compute.
Defined.

(** ** A violation at the first epoch *)

(** A set that the check returned never holds exactly one rover that
    has a row: a pair that is too far apart puts both of its rovers in
    the set. *)
Lemma violation_adds_two (t : Z) (dfs : list series) (th : thresholds)
    (inv : gset nat) (i j : nat) :
  check_validity t dfs th = Some inv → violates t dfs th i j →
  i ∈ inv ∧ j ∈ inv ∧ size inv ≠ 1%nat.
Proof.
  intros Hcheck Hv. pose proof (check_validity_Some _ _ _ _ Hcheck) as Hin.
  pose proof Hv as (Hij & rI & rJ & thr & HrI & HrJ & _).
  assert (is_Some (row_at dfs i t)) as Hi%row_at_lt by (by rewrite HrI).
  assert (is_Some (row_at dfs j t)) as Hj%row_at_lt by (by rewrite HrJ).
  assert (i ∈ inv) as Hi' by (apply Hin; split; [done|]; right; exists j; by left).
  assert (j ∈ inv) as Hj' by (apply Hin; split; [done|]; right; exists i; by right).
  split; [done|]. split; [done|].
  intros (x & Hx)%size_1_elem_of.
  assert (i = x) by set_solver. assert (j = x) by set_solver. lia.
Qed.



(** ** A rover without a row on one side of a gap *)

Lemma repair_rover_no_neighbour (min_gpst t : Z) (inv : gset nat)
    (dfs : list series) (k : nat) (df : series) :
  min_gpst < t → dfs !! k = Some df →
  (∀ u, u < t → df !! u = None) ∨ (∀ u, t < u → df !! u = None) →
  repair_rover min_gpst t inv dfs k = None.
Proof.
  intros Hlt Hk Hside. unfold repair_rover.
  replace (t =? min_gpst) with false by (symmetry; apply Z.eqb_neq; lia).
  replace (min_gpst <? t) with true by (symmetry; apply Z.ltb_lt; lia).
  simpl. rewrite Hk. simpl. destruct Hside as [Hprev | Hnext].
  - by rewrite prev_gpst_none.
  - destruct (loc df (prev_gpst df t)); simpl; [|done].
    by rewrite next_gpst_none.
Qed.

(** After the first epoch, a rover that has no row at [t] and no row
    before [t], or none after [t], makes the body of the loop raise:
    [df.loc[prev_gpst]] or [df.loc[next_gpst]] is looked up at [NaT].  A
    rover whose log stops before the others stops the run at the first
    epoch it lacks, whatever the thresholds and the other rovers. *)
Theorem gap_without_neighbour_raises (fuel : nat) (min_gpst max_gpst t : Z)
    (th : thresholds) (dataframes : list series) (final_df : list (Z * Row))
    (k : nat) (df : series) :
  min_gpst < t → t < max_gpst →
  dataframes !! k = Some df → df !! t = None →
  (∀ u, u < t → df !! u = None) ∨ (∀ u, t < u → df !! u = None) →
  epoch min_gpst t th dataframes = None ∧
  epoch_loop (S fuel) min_gpst max_gpst th t dataframes final_df
  = Raised t final_df.
Proof.
  intros Hmin Hmax Hk Hnone Hside.
  assert (epoch min_gpst t th dataframes = None) as Hepoch.
  { unfold epoch.
    destruct (check_validity t dataframes th) as [inv|] eqn:Hcheck; [|done].
    simpl.
    assert (k ∈ inv) as Hin.
    { apply (check_validity_Some _ _ _ _ Hcheck).
      split; [by eapply lookup_lt_Some|]. left.
      unfold row_at. by rewrite Hk. }
    assert (repair min_gpst t inv dataframes = None) as ->; [|done].
    rewrite <- (repair_order_irrelevant
                  (k :: filter (λ r, r ≠ k) (elements inv))).
    - unfold repair_in. cbn [for_each].
      by rewrite (repair_rover_no_neighbour _ _ _ _ _ df).
    - apply NoDup_cons. split.
      + intros [Hkk _]%list_elem_of_filter. by apply Hkk.
      + apply NoDup_filter, NoDup_elements.
    - intros r. rewrite elem_of_cons, list_elem_of_filter, elem_of_elements.
      split; [by intros [-> | [_ ?]]|].
      intros Hr. destruct (decide (r = k)); [by left | by right]. }
  split; [done|]. cbn [epoch_loop]. rewrite Hepoch.
  by replace (t <? max_gpst) with true by (symmetry; by apply Z.ltb_lt).
Qed.

Lemma gap_without_neighbour_raises_witness :
  epoch 0 (2 * second) all_20 [long_df; short_df] = None ∧
  epoch_loop 2 0 (3 * second) all_20 (2 * second) [long_df; short_df] []
  = Raised (2 * second) [].
Proof.
  apply (gap_without_neighbour_raises 1 0 (3 * second) (2 * second) all_20
           [long_df; short_df] [] 1 short_df).
  - reflexivity.
  - reflexivity.
  - reflexivity.
  - reflexivity.
  - right. intros u Hu. unfold short_df.
    rewrite lookup_insert_ne by (unfold second in Hu; lia).
    apply lookup_singleton_ne. unfold second in *. lia.
Defined.

(** The window of these two rovers ends with the longer log, and the run
    raises at the first epoch that the shorter log lacks, after fusing
    the two epochs that both have. *)
Example short_log_stops_the_run :
  window [long_df; short_df] = (At 0, At (3 * second)) ∧
  ∃ final_df, run all_20 [long_df; short_df] = Raised (2 * second) final_df
              ∧ final_df.*1 = [0; second].
Proof. split; [by vm_compute|]. eexists. split; by vm_compute. Qed.

(** ** Logs without gaps *)

Lemma gap_free_insert (min_gpst : Z) (n : nat) (df : series) (t : Z) (row : Row) :
  gap_free min_gpst n df → gap_free min_gpst n (<[t := row]> df).
Proof.
  intros H k Hk. destruct (H k Hk) as [r Hr].
  destruct (decide (t = min_gpst + Z.of_nat k * second)) as [-> | Hne].
  - rewrite lookup_insert_eq. by eexists.
  - rewrite lookup_insert_ne by done. by eexists.
Qed.

Lemma gap_free_row_at (min_gpst : Z) (n k : nat) (dfs : list series) (r : nat) :
  Forall (gap_free min_gpst n) dfs → (k ≤ n)%nat → (r < length dfs)%nat →
  is_Some (row_at dfs r (min_gpst + Z.of_nat k * second)).
Proof.
  intros Hall Hk Hr. unfold row_at.
  destruct (lookup_lt_is_Some_2 dfs r Hr) as [df Hdf]. rewrite Hdf. simpl.
  rewrite Forall_lookup in Hall. by apply (Hall r df Hdf).
Qed.

(** With a row at the epochs on both sides, the repair of a rover after
    the first epoch succeeds and leaves a log without gaps. *)
Lemma repair_rover_gap_free (min_gpst : Z) (n k : nat) (inv : gset nat)
    (dfs : list series) (r : nat) :
  Forall (gap_free min_gpst n) dfs → (0 < k)%nat → (k < n)%nat →
  (r < length dfs)%nat →
  ∃ dfs', repair_rover min_gpst (min_gpst + Z.of_nat k * second) inv dfs r
          = Some dfs' ∧
          Forall (gap_free min_gpst n) dfs' ∧ length dfs' = length dfs.
Proof.
  intros Hall H0 Hk Hr. set (t := min_gpst + Z.of_nat k * second).
  destruct (lookup_lt_is_Some_2 dfs r Hr) as [df Hdf].
  assert (gap_free min_gpst n df) as Hdf'
    by (rewrite Forall_lookup in Hall; by apply (Hall r)).
  assert (is_Some (loc df (prev_gpst df t))) as [p Hp].
  { unfold prev_gpst.
    destruct (index_max_spec (filter (λ u, u < t) (index df)))
      as (m & -> & Hm & _).
    - assert (min_gpst + Z.of_nat (k - 1) * second
              ∈ filter (λ u, u < t) (index df)) as Hin.
      { apply list_elem_of_filter. split.
        - unfold t, second. lia.
        - apply elem_of_index, Hdf'. lia. }
      intros E. rewrite E in Hin. by apply elem_of_nil in Hin.
    - apply list_elem_of_filter in Hm as [_ Hm]. by apply elem_of_index. }
  assert (is_Some (loc df (next_gpst df t))) as [q Hq].
  { unfold next_gpst.
    destruct (index_min_spec (filter (λ u, t < u) (index df)))
      as (m & -> & Hm & _).
    - assert (min_gpst + Z.of_nat (k + 1) * second
              ∈ filter (λ u, t < u) (index df)) as Hin.
      { apply list_elem_of_filter. split.
        - unfold t, second. lia.
        - apply elem_of_index, Hdf'. lia. }
      intros E. rewrite E in Hin. by apply elem_of_nil in Hin.
    - apply list_elem_of_filter in Hm as [_ Hm]. by apply elem_of_index. }
  exists (<[r := <[t := interpolate p q]> df]> dfs). split; [|split].
  - unfold repair_rover.
    replace (t =? min_gpst) with false
      by (symmetry; apply Z.eqb_neq; unfold t, second; lia).
    replace (min_gpst <? t) with true
      by (symmetry; apply Z.ltb_lt; unfold t, second; lia).
    simpl. rewrite Hdf. simpl. rewrite Hp. simpl. by rewrite Hq.
  - apply Forall_insert; [done | by apply gap_free_insert].
  - by rewrite length_insert.
Qed.

Lemma repair_in_gap_free (order : list nat) (min_gpst : Z) (n k : nat)
    (inv : gset nat) (dfs : list series) :
  Forall (gap_free min_gpst n) dfs → (0 < k)%nat → (k < n)%nat →
  (∀ r, r ∈ order → (r < length dfs)%nat) →
  ∃ dfs', repair_in order min_gpst (min_gpst + Z.of_nat k * second) inv dfs
          = Some dfs' ∧
          Forall (gap_free min_gpst n) dfs' ∧ length dfs' = length dfs.
Proof.
  intros Hall H0 Hk. revert dfs Hall. unfold repair_in.
  induction order as [|r order IH]; intros dfs Hall Hlt.
  - by exists dfs.
  - destruct (repair_rover_gap_free min_gpst n k inv dfs r Hall H0 Hk)
      as (dfs1 & Hstep & Hall1 & Hlen1); [apply Hlt; left|].
    destruct (IH dfs1 Hall1) as (dfs' & Hrest & Hall' & Hlen').
    { intros r' Hr'. rewrite Hlen1. apply Hlt. by right. }
    exists dfs'. cbn [for_each]. rewrite Hstep. simpl.
    split; [done|]. split; [done | congruence].
Qed.

(** The body of the loop at an epoch of logs without gaps. *)
Lemma epoch_gap_free (min_gpst : Z) (n k : nat) (th : thresholds)
    (dfs : list series) :
  dfs ≠ [] → Forall (gap_free min_gpst n) dfs → complete (length dfs) th →
  (k < n)%nat →
  ∃ dfs' row, epoch min_gpst (min_gpst + Z.of_nat k * second) th dfs
              = Some (dfs', row) ∧
              Forall (gap_free min_gpst n) dfs' ∧ length dfs' = length dfs.
Proof.
  intros Hne Hall Hth Hk. set (t := min_gpst + Z.of_nat k * second).
  destruct (check_validity_covers t dfs th (complete_covers t dfs th Hth))
    as (inv & Hcheck & Hin).
  assert (∀ r, r ∈ inv → (r < length dfs)%nat) as Hlt
    by (by intros r [? _]%Hin).
  assert (size inv ≠ 1%nat) as Hsize.
  { intros Hsz. pose proof Hsz as (x & Hx)%size_1_elem_of.
    assert (x ∈ inv) as [Hxlt [Hnone | (s & Hv)]]%Hin by set_solver.
    - destruct (gap_free_row_at min_gpst n k dfs x Hall) as [? ?];
        [lia | done | unfold t in Hnone; congruence].
    - assert (∃ i j, violates t dfs th i j) as (i & j & Hij)
        by (destruct Hv; eauto).
      destruct (violation_adds_two _ _ _ _ _ _ Hcheck Hij) as (_ & _ & Hne1).
      by apply Hne1. }
  assert (∃ dfs', repair min_gpst t inv dfs = Some dfs' ∧
                  Forall (gap_free min_gpst n) dfs' ∧ length dfs' = length dfs)
    as (dfs' & Hrep & Hall' & Hlen').
  { destruct k as [|k].
    - exists dfs. split; [|done].
      replace t with min_gpst by (unfold t; lia).
      by apply repair_first_epoch_several.
    - apply repair_in_gap_free; [done | lia | done |].
      intros r Hr%elem_of_elements. by apply Hlt. }
  assert (is_Some (fuse t dfs')) as [row Hrow].
  { destruct (proj2 (rows_at_is_Some t dfs')) as [rows Hrows].
    - intros r df Hr. rewrite Forall_lookup in Hall'.
      apply (Hall' r df Hr). lia.
    - eexists. apply fuse_Some. split; [|by exists rows].
      intros ->. destruct dfs; [done | simpl in Hlen'; lia]. }
  exists dfs', row. split; [|done].
  unfold epoch. fold t. rewrite Hcheck. simpl. rewrite Hrep. simpl.
  by rewrite Hrow.
Qed.

Lemma epoch_loop_gap_free (min_gpst : Z) (n : nat) (th : thresholds) (N : nat)
    (j : nat) :
  ∀ (k fuel : nat) (dfs : list series) (out : list (Z * Row)),
    (k + j = n)%nat → (j < fuel)%nat →
    dfs ≠ [] → Forall (gap_free min_gpst n) dfs → length dfs = N →
    complete N th →
    ∃ dfs' out',
      epoch_loop fuel min_gpst (min_gpst + Z.of_nat n * second) th
                 (min_gpst + Z.of_nat k * second) dfs out
      = Finished dfs' out' ∧
      out'.*1 = out.*1 ++ ((λ i : nat, min_gpst + Z.of_nat i * second) <$> seq k j).
Proof.
  induction j as [|j IH]; intros k fuel dfs out Hkj Hfuel Hne Hall Hlen Hth;
    (destruct fuel as [|fuel]; [lia|]); cbn [epoch_loop].
  - replace k with n by lia. rewrite Z.ltb_irrefl.
    exists dfs, out. by rewrite app_nil_r.
  - replace (_ <? _) with true
      by (symmetry; apply Z.ltb_lt; unfold second; nia).
    destruct (epoch_gap_free min_gpst n k th dfs Hne Hall)
      as (dfs1 & row & -> & Hall1 & Hlen1); [by rewrite Hlen | lia |].
    replace (min_gpst + Z.of_nat k * second + second)
      with (min_gpst + Z.of_nat (S k) * second) by lia.
    destruct (IH (S k) fuel dfs1 (out ++ [(min_gpst + Z.of_nat k * second, row)]))
      as (dfs' & out' & -> & Hout); [lia | lia | | done | congruence | done |].
    { intros ->. destruct dfs; [done | simpl in Hlen1; lia]. }
    exists dfs', out'. split; [done|].
    rewrite Hout, fmap_app, <- app_assoc. done.
Qed.

(** Logs without gaps never make [algorithm] raise: when every rover
    has a row at every epoch from [min_gpst] to [max_gpst], one second
    apart, and [thesholds] has an entry for every pair of rovers, the
    run returns, with one fused row for each epoch below [max_gpst],
    whatever the distances between the rovers. *)
Theorem gap_free_logs_never_raise (min_gpst : Z) (n : nat) (th : thresholds)
    (dataframes : list series) :
  dataframes ≠ [] →
  Forall (gap_free min_gpst n) dataframes →
  complete (length dataframes) th →
  ∃ dataframes' final_df,
    algorithm min_gpst (min_gpst + Z.of_nat n * second) th dataframes
    = Finished dataframes' final_df ∧
    final_df.*1 = epochs_from min_gpst n.
Proof.
  intros Hne Hall Hth. unfold algorithm.
  destruct (epoch_loop_gap_free min_gpst n th (length dataframes) n 0
              (turns min_gpst (min_gpst + Z.of_nat n * second)) dataframes [])
    as (dfs' & out & Hloop & Hout); try done.
  - unfold turns.
    replace (min_gpst + Z.of_nat n * second - min_gpst)
      with (Z.of_nat n * second) by lia.
    rewrite Z.div_mul by (unfold second; lia). lia.
  - exists dfs', out. split; [|done].
    by replace (min_gpst + Z.of_nat 0 * second) with min_gpst in Hloop by lia.
Qed.

Lemma gap_free_logs_never_raise_witness :
  ∃ dataframes' final_df,
    algorithm 0 (0 + Z.of_nat 2 * second) all_20 even_dfs
    = Finished dataframes' final_df ∧
    final_df.*1 = epochs_from 0 2.
Proof.
  apply (gap_free_logs_never_raise 0 2 all_20 even_dfs).
  - done.
  - repeat constructor; intros [|[|[|k]]] Hk; try lia; by eexists.
  - intros i j Hij Hj. simpl in Hj.
    destruct i as [|[|i]], j as [|[|j]]; try lia; by eexists.
Defined.

(** ** The fused position *)







(** ** The other columns of the fused row *)

(** Each of the six (co)variance columns of the fused row is the
    greatest of zero and the rovers' values in that column, so that it
    is never negative and never below the value of a rover; the columns
    [Q], [ns], [age] and [ratio] hold zero. *)
Theorem fused_spread_is_max_with_zero (t : Z) (dataframes : list series)
    (rows : list Row) (new_row : Row) :
  fuse t dataframes = Some new_row → rows_at t dataframes = Some rows →
  (∀ c, c ∈ spread_columns →
        is_max_of (c new_row) (0%Q :: (c <$> rows)) ∧
        (0 <= c new_row)%Q ∧ ∀ r, r ∈ rows → (c r <= c new_row)%Q) ∧
  Qfix new_row = 0 ∧ ns new_row = 0 ∧ age new_row = 0%Q ∧ ratio new_row = 0%Q.
Proof.
  intros Hf Hr. split; [|by apply (fuse_sentinels t dataframes)].
  intros c Hc. pose proof (fuse_spread t dataframes rows new_row c Hf Hr Hc) as Hmax.
  split; [done|]. destruct Hmax as [_ Hle]. split.
  - apply Hle. left.
  - intros r Hin. apply Hle. right. apply list_elem_of_fmap. by exists r.
Qed.

Lemma fused_spread_is_max_with_zero_witness :
  (∀ c, c ∈ spread_columns →
        is_max_of (c line_fused) (0%Q :: (c <$> [pos_row 0 1; pos_row 1 1; pos_row 2 1])) ∧
        (0 <= c line_fused)%Q ∧
        ∀ r, r ∈ [pos_row 0 1; pos_row 1 1; pos_row 2 1] → (c r <= c line_fused)%Q) ∧
  Qfix line_fused = 0 ∧ ns line_fused = 0 ∧
  age line_fused = 0%Q ∧ ratio line_fused = 0%Q.
Proof.
  apply (fused_spread_is_max_with_zero 0 line_dfs); reflexivity.
Defined.

(** ** The row written at the first epoch *)






(** ** The lines that the reader tests *)


(** In [late_marker_log] the column header line in the second place is
    passed over and the one in the fifth place is found. *)
Example late_marker_is_found :
  Reader.skip_header late_marker_log = Some [epoch_line].
Proof. by vm_compute. Qed.

(** ** Blanks and fields *)

Lemma string_app_cons (c : ascii) (s t : string) :
  (String c s ++ t)%string = String c (s ++ t).
Proof. reflexivity. Qed.

Lemma string_app_nil_l (s : string) : ("" ++ s)%string = s.
Proof. reflexivity. Qed.

Lemma string_app_nil_r (s : string) : (s ++ "")%string = s.
Proof.
  induction s as [|c s IH]; [done|]. by rewrite string_app_cons, IH.
Qed.

Lemma string_app_assoc (s1 s2 s3 : string) :
  ((s1 ++ s2) ++ s3)%string = (s1 ++ s2 ++ s3)%string.
Proof.
  induction s1 as [|c s1 IH]; [done|]. by rewrite !string_app_cons, IH.
Qed.


Lemma lstrip_all_space (b s : string) :
  all_space b = true → Reader.lstrip (b ++ s) = Reader.lstrip s.
Proof.
  induction b as [|c b IH]; [done|]. rewrite string_app_cons. simpl.
  intros [-> Hb]%andb_true_iff. by apply IH.
Qed.











(** ** The rows that the reader makes *)



(** The line of the sample log is that line of fields. *)
Example epoch_line_is_line_of :
  line_of EmptyString "2024/01/01" epoch_fields nl = epoch_line.
Proof. reflexivity. Qed.

(** A line of blanks has one empty field, and [data[1]] raises. *)
Lemma parse_line_all_space (line : string) :
  all_space line = true → Reader.parse_line line = None.
Proof.
  intros Hline. unfold Reader.parse_line, Reader.strip.
  rewrite <- (string_app_nil_r line), lstrip_all_space by done. done.
Qed.

(** A line of the body that holds blanks only, an empty last line
    included, makes the reader raise: no DataFrame is made. *)
Theorem blank_line_raises (file body : list string) (line : string) :
  Reader.skip_header file = Some body → line ∈ body →
  all_space line = true →
  Reader.create_dataframe file = None.
Proof.
  intros Hbody Hin Hline. unfold Reader.create_dataframe. rewrite Hbody. simpl.
  apply mapM_None, Exists_exists. exists line. split; [done|].
  by apply parse_line_all_space.
Qed.

Lemma blank_line_raises_witness : Reader.create_dataframe blank_end_log = None.
Proof.
  apply (blank_line_raises blank_end_log [epoch_line; nl] nl).
  - reflexivity.
  - right. left.
  - reflexivity.
Defined.



(** ** The name of a new rover *)

Lemma rover_name_inj : Inj (=) (=) GNSSPos.rover_name.
Proof.
  intros i j H. unfold GNSSPos.rover_name in H.
  apply (inj _) in H. apply (inj _) in H. by injection H.
Qed.

(** What the loop returns over the numbers [a], ..., [a + n - 1]. *)
Lemma first_free_seq (names : list (option string)) (n a : nat) :
  match GNSSPos.first_free names (seq a n) with
  | Some s =>
      ∃ i, (a ≤ i < a + n)%nat ∧ s = GNSSPos.rover_name i ∧ (Some s ∉ names) ∧
           ∀ j, (a ≤ j < i)%nat → Some (GNSSPos.rover_name j) ∈ names
  | None => ∀ j, (a ≤ j < a + n)%nat → Some (GNSSPos.rover_name j) ∈ names
  end.
Proof.
  revert a. induction n as [|n IH]; intros a; simpl.
  - intros j ?. lia.
  - destruct (decide _) as [Hin | Hout].
    + specialize (IH (S a)).
      destruct (GNSSPos.first_free names (seq (S a) n)) as [s|].
      * destruct IH as (i & Hi & -> & Hs & Hbefore).
        exists i. split; [lia|]. split; [done|]. split; [done|].
        intros j Hj. destruct (decide (j = a)) as [-> | ?]; [done|].
        apply Hbefore. lia.
      * intros j Hj. destruct (decide (j = a)) as [-> | ?]; [done|].
        apply IH. lia.
    + exists a. split; [lia|]. split; [done|]. split; [done|].
      intros j ?. lia.
Qed.

(** A list cannot hold more names than it has entries. *)
Lemma names_run_out (names : list (option string)) (n : nat) :
  (∀ j, (j < n)%nat → Some (GNSSPos.rover_name j) ∈ names) →
  (n ≤ length names)%nat.
Proof.
  intros Hall.
  assert (length ((λ j, Some (GNSSPos.rover_name j)) <$> seq 0 n)
          ≤ length names)%nat as Hle;
    [|by rewrite length_fmap, length_seq in Hle].
  apply submseteq_length, NoDup_submseteq.
  - apply NoDup_fmap_2; [|apply NoDup_seq].
    intros i j H. apply (inj Some) in H. exact (rover_name_inj i j H).
  - intros x (j & -> & Hj%elem_of_seq)%list_elem_of_fmap. apply Hall. lia.
Qed.

(** The name that [getNewRoverName] returns for a list of rovers. *)
Lemma getNewRoverName_Some (rovers : list GNSSPos.Rover)
    (roverName : option string) :
  GNSSPos.getNewRoverName (Some rovers) = Some roverName →
  ∃ i, roverName = Some (GNSSPos.rover_name i) ∧
       (i ≤ length rovers)%nat ∧
       (Some (GNSSPos.rover_name i) ∉ rover_names rovers) ∧
       ∀ j, (j < i)%nat → Some (GNSSPos.rover_name j) ∈ rover_names rovers.
Proof.
  unfold GNSSPos.getNewRoverName, rover_names. simpl. intros [= <-].
  pose proof (first_free_seq (GNSSPos.name <$> rovers) (length rovers + 1) 0)
    as H.
  destruct (GNSSPos.first_free _ _) as [s|].
  - destruct H as (i & Hi & -> & Hnew & Hbefore).
    exists i. split; [done|]. split; [lia|]. split; [done|].
    intros j Hj. apply Hbefore. lia.
  - assert (length rovers + 1 ≤ length (GNSSPos.name <$> rovers))%nat as Hle.
    { apply names_run_out. intros j Hj. apply H. lia. }
    rewrite length_fmap in Hle. lia.
Qed.

(** [getNewRoverName] always finds a name: it returns ["Rover k"] for
    the least [k ≥ 1] that no rover of the list has for its name, so the
    name is new, [k] is at most the number of rovers plus one, and the
    function never returns [None]. *)
Theorem new_rover_name_is_first_free (rovers : list GNSSPos.Rover) :
  ∃ i, GNSSPos.getNewRoverName (Some rovers)
       = Some (Some (GNSSPos.rover_name i)) ∧
       (i ≤ length rovers)%nat ∧
       (Some (GNSSPos.rover_name i) ∉ rover_names rovers) ∧
       ∀ j, (j < i)%nat → Some (GNSSPos.rover_name j) ∈ rover_names rovers.
Proof.
  destruct (GNSSPos.getNewRoverName (Some rovers)) as [roverName|] eqn:E;
    [|done].
  destruct (getNewRoverName_Some rovers roverName E) as (i & -> & H).
  by exists i.
Qed.

(** With the rovers 1 and 3 in the list the new rover is "Rover 2". *)
Example freed_number_is_taken_again :
  GNSSPos.getNewRoverName
    (Some [GNSSPos.mkRover (Some "Rover 1") None "";
           GNSSPos.mkRover (Some "Rover 3") None ""])
  = Some (Some "Rover 2").
Proof. by vm_compute. Qed.

(** ** Rovers added and deleted *)

Lemma addRover_Some (isfile exists_ : string → bool)
    (rovers rovers' : list GNSSPos.Rover) (name obs_file : option string) :
  GNSSPos.addRover isfile exists_ (Some rovers) name obs_file = Some rovers' →
  rovers' = rovers ++ [GNSSPos.mkRover name obs_file ""].
Proof.
  unfold GNSSPos.addRover.
  destruct obs_file as [path|]; [destruct (_ && _); [done|]|];
    simpl; by intros [= <-].
Qed.

Lemma deleteRover_Some (rovers rovers' : list GNSSPos.Rover) (name : string) :
  GNSSPos.deleteRover (Some rovers) name = Some rovers' →
  ∃ i r, rovers !! i = Some r ∧ GNSSPos.name r = Some name ∧
         (∀ j r', rovers !! j = Some r' → (j < i)%nat →
                  GNSSPos.name r' ≠ Some name) ∧
         rovers' = delete i rovers.
Proof.
  unfold GNSSPos.deleteRover. simpl.
  destruct (list_find _ rovers) as [[i r]|] eqn:E; simpl; [|done].
  intros [= <-]. apply list_find_Some in E as (Hi & Hr & Hbefore).
  by exists i, r.
Qed.

(** [deleteRover] raises exactly when no rover of the list has the
    name; otherwise it takes out the first rover that has the name and
    leaves the others as they were, in their order. *)
Theorem delete_rover_takes_first_match (rovers : list GNSSPos.Rover)
    (name : string) :
  (GNSSPos.deleteRover (Some rovers) name = None
   ↔ Some name ∉ rover_names rovers) ∧
  ∀ rovers', GNSSPos.deleteRover (Some rovers) name = Some rovers' →
    ∃ before r after,
      rovers = before ++ r :: after ∧ GNSSPos.name r = Some name ∧
      (Some name ∉ rover_names before) ∧ rovers' = before ++ after.
Proof.
  split.
  - unfold GNSSPos.deleteRover, rover_names. simpl.
    destruct (list_find _ rovers) as [[i r]|] eqn:E; simpl.
    + apply list_find_Some in E as (Hi & Hr & _). split; [done|].
      intros Hout. destruct Hout. apply list_elem_of_fmap.
      exists r. split; [done|]. by eapply list_elem_of_lookup_2.
    + apply list_find_None in E. split; [|done]. intros _.
      intros (r & Hr & Hin)%list_elem_of_fmap.
      by apply (proj1 (Forall_forall _ _) E r Hin).
  - intros rovers' (i & r & Hi & Hr & Hbefore & ->)%deleteRover_Some.
    exists (take i rovers), r, (drop (S i) rovers).
    split; [by rewrite take_drop_middle|]. split; [done|].
    split; [|apply delete_take_drop].
    intros (r' & Hr' & (j & Hj & Hlt)%elem_of_take)%list_elem_of_fmap.
    by apply (Hbefore j r').
Qed.

(** A rover added under a name that no rover has is the one that
    [deleteRover] takes out for that name: the list is as before. *)
Theorem added_rover_is_deleted_again (isfile exists_ : string → bool)
    (rovers rovers' : list GNSSPos.Rover) (name : string)
    (obs_file : option string) :
  Some name ∉ rover_names rovers →
  GNSSPos.addRover isfile exists_ (Some rovers) (Some name) obs_file
  = Some rovers' →
  GNSSPos.deleteRover (Some rovers') name = Some rovers.
Proof.
  intros Hnew ->%addRover_Some. unfold GNSSPos.deleteRover. simpl.
  assert (list_find (λ r, GNSSPos.name r = Some name)
            (rovers ++ [GNSSPos.mkRover (Some name) obs_file ""])
          = Some (length rovers, GNSSPos.mkRover (Some name) obs_file ""))
    as ->.
  { apply list_find_Some. split; [|split; [done|]].
    - rewrite lookup_app_r by done. by rewrite Nat.sub_diag.
    - intros j r Hj Hlt Hr. rewrite lookup_app_l in Hj by done.
      apply Hnew, list_elem_of_fmap. exists r.
      split; [done|]. by eapply list_elem_of_lookup_2. }
  simpl. rewrite <- (app_nil_r rovers) at 3. by rewrite delete_middle.
Qed.

Lemma added_rover_is_deleted_again_witness :
  GNSSPos.deleteRover
    (Some [GNSSPos.mkRover (Some "Rover 1") (Some "a.obs") "";
           GNSSPos.mkRover (Some "Rover 2") (Some "b.obs") ""])
    "Rover 2"
  = Some [GNSSPos.mkRover (Some "Rover 1") (Some "a.obs") ""].
Proof.
  apply (added_rover_is_deleted_again one_file one_file
           [GNSSPos.mkRover (Some "Rover 1") (Some "a.obs") ""] _
           "Rover 2" (Some "b.obs")).
  - apply (bool_decide_unpack _). by vm_compute.
  - by vm_compute.
Defined.

(** Whatever the user adds and deletes in the window, no two rovers of
    the controller have the same name, and every name is ["Rover k"] for
    some [k ≥ 1]. *)
Theorem rover_names_stay_distinct (isfile exists_ : string → bool)
    (rovers : list GNSSPos.Rover) :
  reachable isfile exists_ rovers →
  NoDup (rover_names rovers) ∧
  ∀ r, r ∈ rovers → ∃ i, GNSSPos.name r = Some (GNSSPos.rover_name i).
Proof.
  unfold rover_names.
  induction 1 as [| rovers roverName obsFile rovers' _ [IHnd IHnm] Hname Hadd
                  | rovers roverName rovers' _ [IHnd IHnm] Hdel
                  | rovers i rover posFile _ [IHnd IHnm] Hi].
  - split; [constructor|]. by intros r ?%elem_of_nil.
  - apply getNewRoverName_Some in Hname as (i & -> & _ & Hnew & _).
    apply addRover_Some in Hadd as ->. split.
    + rewrite fmap_app. apply NoDup_app. split; [done|]. split.
      * intros x Hx ->%list_elem_of_singleton. by apply Hnew.
      * apply NoDup_singleton.
    + intros r [Hr | ->%list_elem_of_singleton]%elem_of_app; [by apply IHnm|].
      by exists i.
  - apply deleteRover_Some in Hdel as (i & r & _ & _ & _ & ->). split.
    + rewrite list_fmap_delete.
      apply (sublist_NoDup _ _ IHnd), sublist_delete.
    + intros r' Hr'. apply IHnm.
      apply (elem_of_sublist _ _ _ Hr'), sublist_delete.
  - split.
    + rewrite list_fmap_insert. simpl.
      rewrite list_insert_id; [done|]. by rewrite list_lookup_fmap, Hi.
    + intros r' (j & Hj)%list_elem_of_lookup.
      apply list_lookup_insert_Some in Hj as [(-> & <- & _) | [_ Hj]].
      * apply (IHnm rover). by eapply list_elem_of_lookup_2.
      * apply IHnm. by eapply list_elem_of_lookup_2.
Qed.

Lemma rover_names_stay_distinct_witness :
  NoDup (rover_names [GNSSPos.mkRover (Some "Rover 2") (Some "b.obs") ""]) ∧
  ∀ r, r ∈ [GNSSPos.mkRover (Some "Rover 2") (Some "b.obs") ""] →
       ∃ i, GNSSPos.name r = Some (GNSSPos.rover_name i).
Proof.
  apply (rover_names_stay_distinct one_file one_file).
  apply (reachable_delete _ _
           [GNSSPos.mkRover (Some "Rover 1") (Some "a.obs") "";
            GNSSPos.mkRover (Some "Rover 2") (Some "b.obs") ""] "Rover 1");
    [|by vm_compute].
  apply (reachable_add _ _
           [GNSSPos.mkRover (Some "Rover 1") (Some "a.obs") ""]
           (Some "Rover 2") (Some "b.obs")); [|by vm_compute..].
  apply (reachable_add _ _ [] (Some "Rover 1") (Some "a.obs"));
    [|by vm_compute..].
  apply reachable_clear.
Defined.

(** ** The check of the observation file *)

(** On a file system, where what is a file exists, [addRover] never
    raises once [_rovers] is a list: the test of line 112 cannot hold,
    and a rover is added also for a path at which there is nothing. *)
Theorem add_rover_accepts_any_path (isfile exists_ : string → bool)
    (rovers : list GNSSPos.Rover) (name obs_file : option string) :
  file_system isfile exists_ →
  GNSSPos.addRover isfile exists_ (Some rovers) name obs_file
  = Some (rovers ++ [GNSSPos.mkRover name obs_file ""]).
Proof.
  intros Hfs. unfold GNSSPos.addRover.
  destruct obs_file as [path|]; [|done].
  destruct (isfile path) eqn:E; [|done]. by rewrite (Hfs path E).
Qed.

Lemma add_rover_accepts_any_path_witness :
  one_file "missing.obs" = false ∧
  GNSSPos.addRover one_file one_file (Some []) (Some "Rover 1")
    (Some "missing.obs")
  = Some [GNSSPos.mkRover (Some "Rover 1") (Some "missing.obs") ""].
Proof.
  split; [by vm_compute|].
  apply (add_rover_accepts_any_path one_file one_file []). by intros path.
Defined.

(** ** The rovers of the command line *)

Lemma split_cons (sep : ascii) (s field : string) :
  ∃ first rest, GNSSPos.split sep s field = first :: rest.
Proof.
  revert field. induction s as [|c s IH]; intros field; simpl.
  - by eexists _, _.
  - destruct (decide (c = sep)); [by eexists _, _ | apply IH].
Qed.

(** A controller made with a list of rovers is never made: [_rovers] is
    read (line 107) before anything was assigned to it, for the first
    field of the list already, whatever the file system holds. *)
Theorem constructor_with_rovers_raises (isfile exists_ : string → bool)
    (rovers : string) :
  GNSSPos.init_rovers isfile exists_ None (Some rovers) = None.
Proof.
  unfold GNSSPos.init_rovers.
  by destruct (split_cons "," rovers EmptyString) as (first & rest & ->).
Qed.

(** ** The configuration reader *)

(** A property of the state that every turn of a loop keeps holds when
    the loop returns. *)
Lemma for_each_invariant {A B : Type} (P : A → Prop) (f : A → B → option A)
    (l : list B) (a a' : A) :
  (∀ a b a', P a → f a b = Some a' → P a') →
  P a → for_each f a l = Some a' → P a'.
Proof.
  intros Hstep. revert a. induction l as [|b l IH]; intros a Ha H.
  - by injection H as <-.
  - simpl in H. destruct (f a b) as [a1|] eqn:E; simpl in H; [|done].
    apply (IH a1); [by eapply Hstep | done].
Qed.


(** *** Characters of strings *)

Lemma has_char_app (c : ascii) (s t : string) :
  has_char c (s ++ t) = has_char c s || has_char c t.
Proof.
  induction s as [|c' s IH]; [done|]. rewrite string_app_cons. simpl.
  by rewrite IH, orb_assoc.
Qed.

Lemma has_char_lstrip (c : ascii) (s : string) :
  has_char c s = false → has_char c (Reader.lstrip s) = false.
Proof.
  induction s as [|c' s IH]; [done|]. simpl.
  intros [Hc Hs]%orb_false_iff. destruct (Reader.is_space c'); [by apply IH|].
  simpl. by rewrite Hc, Hs.
Qed.

Lemma has_char_rstrip (c : ascii) (s : string) :
  has_char c s = false → has_char c (Reader.rstrip s) = false.
Proof.
  induction s as [|c' s IH]; [done|]. simpl.
  intros [Hc Hs]%orb_false_iff. specialize (IH Hs).
  destruct (Reader.rstrip s) as [|c'' t].
  - destruct (Reader.is_space c'); [done|]. simpl. by rewrite Hc.
  - simpl in *. by rewrite Hc, IH.
Qed.

Lemma has_char_strip (c : ascii) (s : string) :
  has_char c s = false → has_char c (Reader.strip s) = false.
Proof. intros H. by apply has_char_rstrip, has_char_lstrip. Qed.

(** *** [strip] *)

(** What [lstrip] returns begins with a character that is not a blank,
    when it is not empty. *)
Lemma lstrip_head (s : string) :
  match Reader.lstrip s with
  | EmptyString => True
  | String c _ => Reader.is_space c = false
  end.
Proof.
  induction s as [|c s IH]; [done|]. simpl.
  destruct (Reader.is_space c) eqn:E; [done|]. by rewrite E.
Qed.

Lemma rstrip_idemp (s : string) :
  Reader.rstrip (Reader.rstrip s) = Reader.rstrip s.
Proof.
  induction s as [|c s IH]; [done|]. simpl.
  destruct (Reader.rstrip s) as [|c' t] eqn:E.
  - destruct (Reader.is_space c) eqn:Ec; [done|]. simpl. by rewrite Ec.
  - change (Reader.rstrip (String c (String c' t)))
      with (match Reader.rstrip (String c' t) with
            | EmptyString =>
                if Reader.is_space c then EmptyString else String c EmptyString
            | tail => String c tail
            end).
    by rewrite IH.
Qed.

(** [rstrip] keeps the first character when it is not a blank. *)
Lemma rstrip_head (c : ascii) (s : string) :
  Reader.is_space c = false →
  ∃ t, Reader.rstrip (String c s) = String c t.
Proof.
  intros Hc. simpl. destruct (Reader.rstrip s) as [|c' t].
  - rewrite Hc. by eexists.
  - by eexists.
Qed.

(** What [strip] returns has no blank left to take. *)
Lemma strip_idemp (s : string) : Reader.strip (Reader.strip s) = Reader.strip s.
Proof.
  unfold Reader.strip. pose proof (lstrip_head s) as Hhead.
  destruct (Reader.lstrip s) as [|c t]; [done|].
  destruct (rstrip_head c t Hhead) as [t' Et]. rewrite Et.
  assert (Reader.lstrip (String c t') = String c t') as ->
    by (simpl; by rewrite Hhead).
  rewrite <- Et. apply rstrip_idemp.
Qed.






(** *** [split] *)

Lemma split1_no (sep : ascii) (s field : string) :
  has_char sep s = false → GetConfig.split1 sep s field = [(field ++ s)%string].
Proof.
  revert field. induction s as [|c s IH]; intros field; simpl.
  - by rewrite string_app_nil_r.
  - intros [Hc%bool_decide_eq_false Hs]%orb_false_iff.
    destruct (decide (c = sep)); [done|].
    rewrite IH by done. by rewrite string_app_assoc.
Qed.

Lemma split1_at (sep : ascii) (a b field : string) :
  has_char sep a = false →
  GetConfig.split1 sep (a ++ String sep b) field = [(field ++ a)%string; b].
Proof.
  revert field. induction a as [|c a IH]; intros field.
  - intros _. rewrite string_app_nil_l, string_app_nil_r. simpl.
    by destruct (decide (sep = sep)).
  - rewrite string_app_cons. simpl.
    intros [Hc%bool_decide_eq_false Ha]%orb_false_iff.
    destruct (decide (c = sep)); [done|].
    rewrite IH by done. by rewrite string_app_assoc.
Qed.

(** A string in which [sep] occurs, cut at the first [sep]. *)
Lemma has_char_cut (sep : ascii) (s : string) :
  has_char sep s = true →
  ∃ a b, s = (a ++ String sep b)%string ∧ has_char sep a = false.
Proof.
  induction s as [|c s IH]; [done|]. simpl.
  destruct (bool_decide (c = sep)) eqn:Ec.
  - apply bool_decide_eq_true in Ec as ->. intros _.
    by exists EmptyString, s.
  - simpl. intros (a & b & -> & Ha)%IH. exists (String c a), b.
    split; [done|]. simpl. by rewrite Ec.
Qed.


Lemma split_head_clean (sep : ascii) (s field first : string) :
  has_char sep field = false →
  head (GNSSPos.split sep s field) = Some first → has_char sep first = false.
Proof.
  revert field. induction s as [|c s IH]; intros field Hfield; simpl.
  - by intros [= <-].
  - destruct (decide (c = sep)) as [-> | Hne]; simpl; [by intros [= <-]|].
    apply IH. rewrite has_char_app, Hfield. simpl.
    by rewrite bool_decide_eq_false_2.
Qed.

(** *** The dict *)

Lemma setitem_keys (d : list (string * string)) (key value : string) :
  (GetConfig.setitem d key value).*1
  = if decide (key ∈ d.*1) then d.*1 else d.*1 ++ [key].
Proof.
  induction d as [|[k v] d IH]; [done|]. cbn [GetConfig.setitem].
  destruct (decide (k = key)) as [-> | Hne]; rewrite !fmap_cons; cbn [fst].
  - clear IH. case_decide as H; [done|]. destruct H. left.
  - rewrite IH. clear IH.
    destruct (decide (key ∈ d.*1)) as [Hin | Hout],
      (decide (key ∈ k :: d.*1)) as [Hin' | Hout']; try done.
    + destruct Hout'. by right.
    + apply elem_of_cons in Hin' as [-> | ?]; done.
Qed.

Lemma setitem_NoDup (d : list (string * string)) (key value : string) :
  NoDup d.*1 → NoDup (GetConfig.setitem d key value).*1.
Proof.
  intros Hnd. rewrite setitem_keys. destruct (decide _); [done|].
  apply NoDup_app. split; [done|]. split; [|apply NoDup_singleton].
  by intros x Hx ->%list_elem_of_singleton.
Qed.

Lemma setitem_elem_of (d : list (string * string)) (key value k v : string) :
  NoDup d.*1 →
  (k, v) ∈ GetConfig.setitem d key value ↔
  (k = key ∧ v = value) ∨ (k ≠ key ∧ (k, v) ∈ d).
Proof.
  induction d as [|[k0 v0] d IH]; simpl; intros Hnd.
  - rewrite list_elem_of_singleton. split.
    + intros [= -> ->]. by left.
    + intros [[-> ->] | [_ ?%elem_of_nil]]; done.
  - apply NoDup_cons in Hnd as [Hk0 Hnd].
    destruct (decide (k0 = key)) as [-> | Hne].
    + rewrite !elem_of_cons. split.
      * intros [[= -> ->] | Hin]; [by left|]. right. split; [|by right].
        intros ->. apply Hk0, list_elem_of_fmap. by exists (key, v).
      * intros [[-> ->] | [Hk [[= ? ?] | Hin]]]; [by left | done | by right].
    + rewrite !elem_of_cons, (IH Hnd). split.
      * intros [[= -> ->] | [[-> ->] | [Hk Hin]]].
        -- right. split; [done | by left].
        -- by left.
        -- right. split; [done | by right].
      * intros [[-> ->] | [Hk [[= -> ->] | Hin]]].
        -- right. by left.
        -- by left.
        -- right. right. by split.
Qed.

(** *** The lines that are skipped, that raise, and that set a key *)



Example indented_comment_raises :
  GetConfig.get_config ["pos1-posmode=single"; "  # solution options"]%string
  = None.
Proof. by vm_compute. Qed.

(** The keys and the values of the dict that a turn makes. *)
Lemma step_Some (diz diz' : list (string * string)) (line : string) :
  GetConfig.step diz line = Some diz' →
  diz' = diz ∨
  ∃ key value,
    diz' = GetConfig.setitem diz key value ∧
    Reader.strip key = key ∧ has_char "=" key = false ∧
    Reader.strip value = value ∧ has_char "#" value = false.
Proof.
  unfold GetConfig.step. destruct (_ || _); [intros [= <-]; by left|].
  destruct (has_char "=" line) eqn:Eh.
  - destruct (has_char_cut _ _ Eh) as (a & b & -> & Ha).
    rewrite split1_at by done. rewrite string_app_nil_l.
    destruct (head _) as [first|] eqn:Ef; simpl; [|done].
    intros [= <-]. right. exists (Reader.strip a), (Reader.strip first).
    split; [done|]. split; [apply strip_idemp|].
    split; [by apply has_char_strip|]. split; [apply strip_idemp|].
    apply has_char_strip. by apply (split_head_clean "#" b EmptyString).
  - by rewrite split1_no.
Qed.


(** In the dict that the reader builds no key occurs twice; no key and
    no value begins or ends with a blank; no key holds ["="] and no
    value holds ["#"]. *)
Theorem config_entries_are_clean (lines : list string)
    (diz : list (string * string)) :
  GetConfig.diz lines = Some diz →
  NoDup diz.*1 ∧
  ∀ key value, (key, value) ∈ diz →
    Reader.strip key = key ∧ has_char "=" key = false ∧
    Reader.strip value = value ∧ has_char "#" value = false.
Proof.
  unfold GetConfig.diz.
  apply (for_each_invariant
           (λ d, NoDup d.*1 ∧
                 ∀ key value, (key, value) ∈ d →
                   Reader.strip key = key ∧ has_char "=" key = false ∧
                   Reader.strip value = value ∧ has_char "#" value = false)).
  - intros d line d' [Hnd Hclean] [-> | (k & v & -> & Hk)]%step_Some;
      [done|].
    split; [by apply setitem_NoDup|].
    intros key value [[-> ->] | [_ Hin]]%setitem_elem_of; [done | | done].
    by apply Hclean.
  - split; [constructor|]. by intros key value ?%elem_of_nil.
Qed.

Lemma config_entries_are_clean_witness :
  NoDup [("pos1-posmode", "single"); ("pos1-frequency", "l1+l2")]%string.*1 ∧
  ∀ key value,
    (key, value) ∈ [("pos1-posmode", "single"); ("pos1-frequency", "l1+l2")]%string →
    Reader.strip key = key ∧ has_char "=" key = false ∧
    Reader.strip value = value ∧ has_char "#" value = false.
Proof.
  apply (config_entries_are_clean sample_conf). by vm_compute.
Defined.



(** The key that is set again keeps the first place. *)
Example changed_key_keeps_its_place :
  GetConfig.get_config
    (sample_conf ++ ["pos1-posmode  = kinematic # was single"]%string)
  = Some ["'pos1-posmode': 'kinematic',"; "'pos1-frequency': 'l1+l2',"]%string.
Proof. by vm_compute. Qed.

(** ** The date of the downloader *)

(** The calendar agrees with Python's on these dates: the ordinal, the
    day of the year and the day of the week. *)
Example calendar_samples :
  IGSDataDownloader.toordinal IGSDataDownloader.gps_epoch = 722820 ∧
  IGSDataDownloader.toordinal (IGSDataDownloader.mkDate 2000 2 29) = 730179 ∧
  IGSDataDownloader.tm_yday (IGSDataDownloader.mkDate 2024 12 31) = 366 ∧
  IGSDataDownloader.weekday (IGSDataDownloader.mkDate 2022 11 26) = 5.
Proof. by vm_compute. Qed.

Lemma datetime_Some (y m d : Z) (dt : IGSDataDownloader.date) :
  IGSDataDownloader.datetime y m d = Some dt →
  dt = IGSDataDownloader.mkDate y m d ∧ 1 ≤ m ≤ 12 ∧
  1 ≤ d ≤ IGSDataDownloader.days_in_month y m.
Proof.
  unfold IGSDataDownloader.datetime.
  destruct (_ && _) eqn:E; [|done]. intros [= <-].
  repeat (apply andb_true_iff in E as [E ?]). split; [done|]. lia.
Qed.

(** The day of the year of a date of the calendar. *)
Lemma tm_yday_bounds (y m d : Z) :
  1 ≤ m ≤ 12 → 1 ≤ d ≤ IGSDataDownloader.days_in_month y m →
  1 ≤ IGSDataDownloader.tm_yday (IGSDataDownloader.mkDate y m d) ≤ 366.
Proof.
  intros Hm Hd. unfold IGSDataDownloader.tm_yday. simpl.
  assert (m = 1 ∨ m = 2 ∨ m = 3 ∨ m = 4 ∨ m = 5 ∨ m = 6 ∨ m = 7 ∨ m = 8
          ∨ m = 9 ∨ m = 10 ∨ m = 11 ∨ m = 12) as Hcases by lia.
  unfold IGSDataDownloader.days_before_month.
  repeat (destruct Hcases as [-> | Hcases]); [..|subst m];
    revert Hd; unfold IGSDataDownloader.days_in_month;
    destruct (IGSDataDownloader.is_leap y); simpl; lia.
Qed.

(** The week and the day that [setDate] keeps: the days since the 6th
    of January 1980 are seven times [WWWW] plus [D_us], with [D_us]
    from 0 (Sunday) to 6; [D] is the day before [D_us] in the week
    (Monday is 0, Sunday is 6); and [DDD], from 1 to 366, is the number
    of the day in its year. *)
Theorem gps_week_and_day_give_the_date (today : IGSDataDownloader.date)
    (year month day : Z) (o : IGSDataDownloader.DateObj) :
  IGSDataDownloader.setDate today year month day = Some o →
  IGSDataDownloader.date_obj o = IGSDataDownloader.mkDate year month day ∧
  IGSDataDownloader.toordinal (IGSDataDownloader.date_obj o)
  - IGSDataDownloader.toordinal IGSDataDownloader.gps_epoch
  = 7 * IGSDataDownloader.WWWW o + IGSDataDownloader.D_us o ∧
  0 ≤ IGSDataDownloader.D_us o ≤ 6 ∧
  IGSDataDownloader.D o = (IGSDataDownloader.D_us o + 6) mod 7 ∧
  1 ≤ IGSDataDownloader.DDD o ≤ 366 ∧
  IGSDataDownloader.toordinal (IGSDataDownloader.date_obj o)
  = IGSDataDownloader.toordinal (IGSDataDownloader.mkDate year 1 1)
    + IGSDataDownloader.DDD o - 1.
Proof.
  unfold IGSDataDownloader.setDate.
  destruct (IGSDataDownloader.datetime year month day) as [d|] eqn:Ed;
    simpl; [|done].
  destruct (_ <? _); [done|]. unfold IGSDataDownloader.strptime.
  destruct (year <? 1000); [done|]. rewrite Ed. simpl. intros [= <-]. simpl.
  apply datetime_Some in Ed as (-> & Hm & Hd).
  split; [done|].
  replace (IGSDataDownloader.toordinal IGSDataDownloader.gps_epoch)
    with 722820 by (by vm_compute).
  unfold IGSDataDownloader.weekday.
  set (n := IGSDataDownloader.toordinal _).
  split; [Z.div_mod_to_equations; lia|].
  split; [Z.div_mod_to_equations; lia|].
  split; [Z.div_mod_to_equations; lia|].
  split; [by apply tm_yday_bounds|].
  unfold n, IGSDataDownloader.toordinal, IGSDataDownloader.tm_yday. simpl.
  replace (IGSDataDownloader.days_before_month year 1) with 0 by done. lia.
Qed.

Lemma gps_week_and_day_give_the_date_witness :
  ∃ o,
    IGSDataDownloader.setDate a_today 2024 1 7 = Some o ∧
    IGSDataDownloader.date_obj o = IGSDataDownloader.mkDate 2024 1 7 ∧
    IGSDataDownloader.toordinal (IGSDataDownloader.date_obj o)
    - IGSDataDownloader.toordinal IGSDataDownloader.gps_epoch
    = 7 * IGSDataDownloader.WWWW o + IGSDataDownloader.D_us o ∧
    0 ≤ IGSDataDownloader.D_us o ≤ 6 ∧
    IGSDataDownloader.D o = (IGSDataDownloader.D_us o + 6) mod 7 ∧
    1 ≤ IGSDataDownloader.DDD o ≤ 366 ∧
    IGSDataDownloader.toordinal (IGSDataDownloader.date_obj o)
    = IGSDataDownloader.toordinal (IGSDataDownloader.mkDate 2024 1 1)
      + IGSDataDownloader.DDD o - 1.
Proof.
  eexists. split; [by vm_compute|].
  apply (gps_week_and_day_give_the_date a_today 2024 1 7). by vm_compute.
Defined.

(** On Sunday the 7th of January 2024 the week is 2296, [D_us] is 0 and
    [D] is 6. *)
Example sunday_has_day_six :
  ∃ o, IGSDataDownloader.setDate a_today 2024 1 7 = Some o ∧
       IGSDataDownloader.WWWW o = 2296 ∧ IGSDataDownloader.D_us o = 0 ∧
       IGSDataDownloader.D o = 6 ∧ IGSDataDownloader.DDD o = 7 ∧
       IGSDataDownloader.YY o = "24"%string ∧
       IGSDataDownloader.date_str o = "2024-01-07"%string.
Proof. eexists. split; [by vm_compute|]. by vm_compute. Qed.
